(** * BB84 key-distribution simulation: a shallow embedding and its properties

    The development follows the two scripts of the repository,
    [bb84_sim.py] (honest channel) and [TEST/PARTE_2/bb84_eve_sim.py]
    (intercept-resend eavesdropper).  Python values are embedded as follows:

    - a bit is a Python [int], hence a [Z] (the code never checks that it is
      0 or 1);
    - a basis is a Python [str], hence a [string], compared with [==];
    - a measured slot is an [Optional[int]], hence an [option Z];
    - a Python [float] is an IEEE-754 binary64 value, hence a [spec_float]
      with the operations of the Standard Library's [SpecFloat];
    - the module-wide generator [random] is a state threaded through every
      function that draws from it, together with the exception a call may
      raise. *)

From Stdlib Require Import ZArith NArith List Sorted Lia.
From Stdlib Require Import SpecFloat.
From stdpp Require Import base list strings.

(** ** Exceptions and results

    A call returns a value or raises.  The third outcome is the model's
    own: a loop of the [random] module that redraws until it meets a fresh
    answer is followed for a bounded number of redraws ([fuel]), and
    [OutOfFuel] says that the bound was reached, not what the program
    does. *)

Inductive exn : Type :=
  | ZeroDivisionError
  | ValueError
  | OverflowError
  | IndexError.

Inductive result (A : Type) : Type :=
  | Ok (a : A)
  | Raise (e : exn)
  | OutOfFuel.
Arguments Ok {A} a.
Arguments Raise {A} e.
Arguments OutOfFuel {A}.

Definition result_bind {A B : Type} (r : result A) (k : A → result B) : result B :=
  match r with
  | Ok a => k a
  | Raise e => Raise e
  | OutOfFuel => OutOfFuel
  end.

Definition raises {A : Type} (r : result A) : Prop := ∃ e, r = Raise e.

(** ** The random source

    The generator is the sequence of outcomes it is going to deliver: cell
    [cursor] of [tape] answers the next request, reduced to the range that
    the request asks for.  Every sequence of in-range answers is delivered
    by some tape, so a statement over all [Rng] covers every seed. *)

Record Rng : Type := mkRng { tape : nat → N; cursor : nat }.

Definition advance (g : Rng) (d : nat) : Rng :=
  {| tape := tape g; cursor := cursor g + d |}.

(** The computations of the scripts: they read and advance the generator and
    either return a value or raise. *)

Definition M (A : Type) : Type := Rng → result A * Rng.

Definition ret {A : Type} (a : A) : M A := λ g, (Ok a, g).

Definition raise {A : Type} (e : exn) : M A := λ g, (Raise e, g).

Definition out_of_fuel {A : Type} : M A := λ g, (OutOfFuel, g).

Definition bind {A B : Type} (m : M A) (k : A → M B) : M B :=
  λ g, match m g with
       | (Ok a, g') => k a g'
       | (Raise e, g') => (Raise e, g')
       | (OutOfFuel, g') => (OutOfFuel, g')
       end.

Definition lift {A : Type} (r : result A) : M A := λ g, (r, g).

#[global] Instance M_ret : MRet M := @ret.
#[global] Instance M_bind : MBind M := λ A B k m, bind m k.

(** [for x in xs: body], with the loop-carried variables in [s]. *)
Fixpoint for_each {A S : Type} (xs : list A) (body : S → A → M S) (s : S) : M S :=
  match xs with
  | [] => ret s
  | x :: xs' => s' ← body s x; for_each xs' body s'
  end.

Definition next_word : M N :=
  λ g, (Ok (tape g (cursor g)), advance g 1).

(** ** Floats (binary64) *)

Definition float : Type := spec_float.
Definition prec : Z := 53.
Definition emax : Z := 1024.

Definition float_zero : float := S754_zero false.

(** Conversion of an [int]; exact below 2^53, which covers every length and
    count the scripts convert. *)
Definition float_of_int (n : Z) : float := binary_normalize prec emax n 0 false.

Definition float_mul (x y : float) : float := SFmul prec emax x y.
Definition float_lt (x y : float) : bool := SFltb x y.

(** [a / b] on two [int]s. *)
Definition int_truediv (a b : Z) : result float :=
  if (b =? 0)%Z then Raise ZeroDivisionError
  else Ok (SFdiv prec emax (float_of_int a) (float_of_int b)).

(** The integer nearest to [m * 2^e], ties to the even one. *)
Definition round_half_even (m e : Z) : Z :=
  match e with
  | Zneg p =>
      let d := Z.pow_pos 2 p in
      let q := (m / d)%Z in
      match (2 * (m mod d) ?= d)%Z with
      | Lt => q
      | Gt => (q + 1)%Z
      | Eq => if Z.even q then q else (q + 1)%Z
      end
  | _ => (m * 2 ^ e)%Z
  end.

(** [int(round(x))]: [round] already returns an [int]; it raises on NaN and
    on the infinities. *)
Definition py_round (x : float) : result Z :=
  match x with
  | S754_nan => Raise ValueError
  | S754_infinity _ => Raise OverflowError
  | S754_zero _ => Ok 0%Z
  | S754_finite s m e => Ok (cond_Zopp s (round_half_even (Zpos m) e))
  end.

(** ** The calls into the [random] module *)

(** [random._randbelow(n)], defined for [n > 0]: an answer in [[0, n)]. *)
Definition randbelow (n : nat) : M nat :=
  w ← next_word; ret (N.to_nat (w mod N.of_nat n)).

(** [random.randint(a, b)] is [a + _randbelow(b - a + 1)]. *)
Definition randint (a b : Z) : M Z :=
  if (b <? a)%Z then raise ValueError
  else r ← randbelow (Z.to_nat (b - a + 1)); ret (a + Z.of_nat r)%Z.

(** [random.random()]: [k / 2^53] for a 53-bit [k], a float in [[0.0, 1.0)]. *)
Definition unit_float (k : N) : float :=
  binary_normalize prec emax (Z.of_N k) (- 53) false.

Definition random_random : M float :=
  w ← next_word; ret (unit_float (w mod 2 ^ 53)).

(** [random.sample(population, k)] raises [ValueError] unless
    [0 <= k <= n], and then selects in one of two ways.

    When [n <= setsize] it shuffles a copy of the population partially: the
    item chosen at step [i] is replaced by the last live item of the pool. *)
Fixpoint sample_pool {A : Type} (pool : list A) (live k : nat) : M (list A) :=
  match k with
  | O => ret []
  | S k' =>
      j ← randbelow live;
      match pool !! j, pool !! (live - 1) with
      | Some x, Some y =>
          rest ← sample_pool (<[j := y]> pool) (live - 1) k';
          ret (x :: rest)
      | _, _ => raise IndexError
      end
  end.

(** Otherwise it keeps the set of the positions selected so far and draws a
    position below [n] again and again until it is a new one:
    [while j in selected: j = randbelow(n)].  At most [fuel] redraws are
    followed.  The set is only ever added to and tested for membership; it
    is kept as the list of its members. *)
Definition is_selected (j : nat) (selected : list nat) : bool :=
  existsb (Nat.eqb j) selected.

Fixpoint redraw (fuel n : nat) (selected : list nat) (j : nat) : M nat :=
  if is_selected j selected then
    match fuel with
    | O => out_of_fuel
    | S fuel' => j' ← randbelow n; redraw fuel' n selected j'
    end
  else ret j.

Fixpoint sample_set {A : Type} (fuel : nat) (population : list A) (n : nat)
    (selected : list nat) (k : nat) : M (list A) :=
  match k with
  | O => ret []
  | S k' =>
      j ← randbelow n;
      j ← redraw fuel n selected j;
      match population !! j with
      | Some x =>
          rest ← sample_set fuel population n (j :: selected) k';
          ret (x :: rest)
      | None => raise IndexError
      end
  end.

(** [setsize] is 21, plus [4 ** ceil(log(k * 3, 4))] when [k > 5]: the least
    power of 4 that is at least [3 k].  (The library takes the logarithm in
    floating point; [3 k] is never a power of 4, and the exact ceiling is
    used here.) *)
Definition setsize (k : Z) : Z :=
  if (5 <? k)%Z then (21 + 4 ^ ((Z.log2_up (k * 3) + 1) / 2))%Z else 21%Z.

Definition random_sample {A : Type} (fuel : nat) (population : list A) (k : Z) : M (list A) :=
  let n := length population in
  if negb ((0 <=? k)%Z && (k <=? Z.of_nat n)%Z) then raise ValueError
  else if (Z.of_nat n <=? setsize k)%Z then sample_pool population n (Z.to_nat k)
  else sample_set fuel population n [] (Z.to_nat k).

(** [random.choice(seq)] is [seq[_randbelow(len(seq))]]; it raises
    [IndexError] on an empty sequence. *)
Definition choice {A : Type} (xs : list A) : M A :=
  if (length xs =? 0)%nat then raise IndexError
  else
    j ← randbelow (length xs);
    match xs !! j with
    | Some x => ret x
    | None => raise IndexError
    end.

(** [range(n)] *)
Definition range (n : nat) : list nat := seq 0 n.

(** [zip] of three and of four lists stops at the shortest. *)
Fixpoint zip3 {A B C : Type} (xs : list A) (ys : list B) (zs : list C) : list (A * B * C) :=
  match xs, ys, zs with
  | x :: xs', y :: ys', z :: zs' => (x, y, z) :: zip3 xs' ys' zs'
  | _, _, _ => []
  end.

Fixpoint zip4 {A B C D : Type} (xs : list A) (ys : list B) (zs : list C) (ws : list D)
  : list (A * B * C * D) :=
  match xs, ys, zs, ws with
  | x :: xs', y :: ys', z :: zs', w :: ws' => (x, y, z, w) :: zip4 xs' ys' zs' ws'
  | _, _, _, _ => []
  end.

(** [enumerate(xs)] *)
Definition enumerate {A : Type} (xs : list A) : list (nat * A) :=
  zip (seq 0 (length xs)) xs.

(** The second argument of [sample_and_check] / [sample_and_qber] is a
    [float | int], told apart by [isinstance(sample_fraction, int)]. *)
Inductive sample_spec : Type :=
  | SpecInt (k : Z)
  | SpecFloat (f : float).

(** ** [bb84_sim.py]: the honest channel *)

Module bb84_sim.

(** [NOISE_FLIP_PROB = 0.0] and [SAMPLE_FRACTION = 0.05], the double
    nearest to 1/20, which is [7205759403792794 * 2^-57]. *)
Definition NOISE_FLIP_PROB : float := float_zero.
Definition SAMPLE_FRACTION : sample_spec :=
  SpecFloat (S754_finite false 7205759403792794 (-57)).

Definition measure (bits : list Z) (alice_bases bob_bases : list string)
    (noise_flip_prob : float) : M (list (option Z)) :=
  for_each (zip3 bits alice_bases bob_bases)
    (λ measured '(bit, Ba, Bb),
       if String.eqb Ba Bb then
         r ← random_random;
         let m := if float_lt r noise_flip_prob then Z.lxor bit 1 else bit in
         ret (measured ++ [Some m])
       else
         ret (measured ++ [None]))
    [].

Definition extract_step (acc : list Z * list Z * list nat)
    (x : nat * (Z * option Z * string * string)) : list Z * list Z * list nat :=
  let '(raw_A, raw_B, kept_idx) := acc in
  let '(i, (a, m, Ba, Bb)) := x in
  match String.eqb Ba Bb, m with
  | true, Some mv => (raw_A ++ [a], raw_B ++ [mv], kept_idx ++ [i])
  | _, _ => acc
  end.

Definition extract_raw_key (alice_bits : list Z) (measured : list (option Z))
    (alice_bases bob_bases : list string) : list Z * list Z * list nat :=
  fold_left extract_step
    (enumerate (zip4 alice_bits measured alice_bases bob_bases)) ([], [], []).

(** Lines 83-84: the sample size. *)
Definition sample_size (n : Z) (sample_fraction : sample_spec) : result Z :=
  result_bind
    match sample_fraction with
    | SpecInt k => Ok k
    | SpecFloat f =>
        result_bind (py_round (float_mul (float_of_int n) f)) (λ r, Ok (Z.max 1 r))
    end
    (λ k, Ok (Z.min k n)).

(** [sum(1 for i in idxs if raw_A[i] != raw_B[i])] *)
Fixpoint count_mismatches (raw_A raw_B : list Z) (idxs : list nat) : result Z :=
  match idxs with
  | [] => Ok 0%Z
  | i :: rest =>
      match raw_A !! i, raw_B !! i with
      | Some a, Some b =>
          result_bind (count_mismatches raw_A raw_B rest)
            (λ c, Ok ((if (a =? b)%Z then 0 else 1) + c)%Z)
      | _, _ => Raise IndexError
      end
  end.

(** Lines 86-88: the tally over the drawn positions. *)
Definition tally (raw_A raw_B : list Z) (idxs : list nat) (k : Z) : result (float * Z * Z) :=
  result_bind (count_mismatches raw_A raw_B idxs) (λ mismatches,
  result_bind (int_truediv mismatches k) (λ qber,
  Ok (qber, mismatches, k))).

Definition sample_and_check (fuel : nat) (raw_A raw_B : list Z)
    (sample_fraction : sample_spec) : M (float * Z * Z) :=
  let n := length raw_A in
  if (n =? 0)%nat then ret (float_zero, 0%Z, 0%Z)
  else
    k ← lift (sample_size (Z.of_nat n) sample_fraction);
    idxs ← random_sample fuel (range n) k;
    lift (tally raw_A raw_B idxs k).

(** [N_BITS = 1000], [BASES = ('R', 'D')] *)
Definition N_BITS : Z := 1000.
Definition BASES : list string := ["R"; "D"].

(** [[random.randint(0, 1) for _ in range(n)]]; [range(n)] is empty for
    [n <= 0]. *)
Definition rand_bits (n : Z) : M (list Z) :=
  for_each (range (Z.to_nat n))
    (λ acc _, b ← randint 0 1; ret (acc ++ [b]))
    [].

(** [[random.choice(BASES) for _ in range(n)]] *)
Definition rand_bases (n : Z) : M (list string) :=
  for_each (range (Z.to_nat n))
    (λ acc _, B ← choice BASES; ret (acc ++ [B]))
    [].

(** The dataclass [Summary]. *)
Module Summary.
Record t : Type := make {
  n_bits : Z;
  n_matches : Z;
  n_discarded : Z;
  raw_key_length : Z;
  qber : float;
  mismatches : Z;
  sample_size : Z
}.
End Summary.

(** [main], as far as its values go: the generator it starts from is the
    one [random.seed(SEED)] sets up, and the [Summary] it builds is
    returned.  The file writes and the prints in between draw nothing from
    the generator and yield nothing to the computation; they are not part of
    the embedding.  [fuel] bounds the redraws of [random.sample]. *)
Definition main (fuel : nat) : M Summary.t :=
  alice_bits ← rand_bits N_BITS;
  alice_bases ← rand_bases N_BITS;
  bob_bases ← rand_bases N_BITS;
  measured ← measure alice_bits alice_bases bob_bases NOISE_FLIP_PROB;
  let '(raw_A, raw_B, kept_idx) :=
    extract_raw_key alice_bits measured alice_bases bob_bases in
  '(qber, mismatches, k) ← sample_and_check fuel raw_A raw_B SAMPLE_FRACTION;
  let n_matches := Z.of_nat (length kept_idx) in
  ret {| Summary.n_bits := N_BITS;
         Summary.n_matches := n_matches;
         Summary.n_discarded := N_BITS - n_matches;
         Summary.raw_key_length := Z.of_nat (length raw_A);
         Summary.qber := qber;
         Summary.mismatches := mismatches;
         Summary.sample_size := k |}.

End bb84_sim.

(** ** [TEST/PARTE_2/bb84_eve_sim.py]: the intercept-resend eavesdropper *)

Module bb84_eve_sim.

Definition SAMPLE_FRACTION : sample_spec :=
  SpecFloat (S754_finite false 7205759403792794 (-57)).

Definition eve_intercept_resend (alice_bits : list Z) (alice_bases eve_bases : list string)
  : M (list Z * list string) :=
  out_bits ← for_each (zip3 alice_bits alice_bases eve_bases)
    (λ out_bits '(bit, Ba, Be),
       measured ← (if String.eqb Ba Be then ret bit else randint 0 1);
       ret (out_bits ++ [measured]))
    [];
  ret (out_bits, eve_bases).

Definition bob_measure_against_eve (bits_from_eve : list Z) (eve_bases bob_bases : list string)
  : M (list (option Z)) :=
  for_each (zip3 bits_from_eve eve_bases bob_bases)
    (λ measured '(bE, Be, Bb),
       if String.eqb Be Bb then
         ret (measured ++ [Some bE])
       else
         r ← randint 0 1;
         ret (measured ++ [Some r]))
    [].

Definition extract_step (acc : list Z * list Z * list nat)
    (x : nat * (Z * option Z * string * string)) : list Z * list Z * list nat :=
  let '(raw_A, raw_B, idx) := acc in
  let '(i, (a, bm, Ba, Bb)) := x in
  match String.eqb Ba Bb, bm with
  | true, Some bv => (raw_A ++ [a], raw_B ++ [bv], idx ++ [i])
  | _, _ => acc
  end.

Definition extract_raw_key (alice_bits : list Z) (bob_meas : list (option Z))
    (alice_bases bob_bases : list string) : list Z * list Z * list nat :=
  fold_left extract_step
    (enumerate (zip4 alice_bits bob_meas alice_bases bob_bases)) ([], [], []).

(** Lines 96-97: the sample size. *)
Definition sample_size (n : Z) (sample_fraction : sample_spec) : result Z :=
  result_bind
    match sample_fraction with
    | SpecInt k => Ok k
    | SpecFloat f =>
        result_bind (py_round (float_mul (float_of_int n) f)) (λ r, Ok (Z.max 1 r))
    end
    (λ k, Ok (Z.min k n)).

Fixpoint count_mismatches (raw_A raw_B : list Z) (idxs : list nat) : result Z :=
  match idxs with
  | [] => Ok 0%Z
  | i :: rest =>
      match raw_A !! i, raw_B !! i with
      | Some a, Some b =>
          result_bind (count_mismatches raw_A raw_B rest)
            (λ c, Ok ((if (a =? b)%Z then 0 else 1) + c)%Z)
      | _, _ => Raise IndexError
      end
  end.

(** Lines 99-101: the tally over the drawn positions. *)
Definition tally (raw_A raw_B : list Z) (idxs : list nat) (k : Z) : result (float * Z * Z) :=
  result_bind (count_mismatches raw_A raw_B idxs) (λ mismatches,
  result_bind (int_truediv mismatches k) (λ qber,
  Ok (qber, mismatches, k))).

Definition sample_and_qber (fuel : nat) (raw_A raw_B : list Z)
    (sample_fraction : sample_spec) : M (float * Z * Z) :=
  let n := length raw_A in
  if (n =? 0)%nat then ret (float_zero, 0%Z, 0%Z)
  else
    k ← lift (sample_size (Z.of_nat n) sample_fraction);
    idxs ← random_sample fuel (range n) k;
    lift (tally raw_A raw_B idxs k).

Definition N_BITS : Z := 1000.
Definition BASES : list string := ["R"; "D"].

Definition rand_bits (n : Z) : M (list Z) :=
  for_each (range (Z.to_nat n))
    (λ acc _, b ← randint 0 1; ret (acc ++ [b]))
    [].

Definition rand_bases (n : Z) : M (list string) :=
  for_each (range (Z.to_nat n))
    (λ acc _, B ← choice BASES; ret (acc ++ [B]))
    [].

(** The dataclass [Summary]; its last two fields default to [0.0] and
    [0.25], which is [2^52 * 2^-54]. *)
Module Summary.
Record t : Type := make {
  n_bits : Z;
  sifted_len : Z;
  discarded : Z;
  sample_size : Z;
  mismatches : Z;
  qber : float;
  expected_qber_no_eve : float;
  expected_qber_with_eve : float
}.
End Summary.

(** [main], as far as its values go (see [bb84_sim.main]). *)
Definition main (fuel : nat) : M Summary.t :=
  alice_bits ← rand_bits N_BITS;
  alice_bases ← rand_bases N_BITS;
  eve_bases ← rand_bases N_BITS;
  '(bits_to_bob, bases_to_bob) ← eve_intercept_resend alice_bits alice_bases eve_bases;
  bob_bases ← rand_bases N_BITS;
  bob_measured ← bob_measure_against_eve bits_to_bob bases_to_bob bob_bases;
  let '(raw_A, raw_B, kept) :=
    extract_raw_key alice_bits bob_measured alice_bases bob_bases in
  '(qber, mismatches, k) ← sample_and_qber fuel raw_A raw_B SAMPLE_FRACTION;
  ret {| Summary.n_bits := N_BITS;
         Summary.sifted_len := Z.of_nat (length raw_A);
         Summary.discarded := N_BITS - Z.of_nat (length kept);
         Summary.sample_size := k;
         Summary.mismatches := mismatches;
         Summary.qber := qber;
         Summary.expected_qber_no_eve := float_zero;
         Summary.expected_qber_with_eve := S754_finite false 4503599627370496 (-54) |}.

End bb84_eve_sim.

(** ** Characterisations used in the proofs *)

(** The positions a sifting loop keeps, with the two bits kept there; [i] is
    the index of the head of [zs]. *)
Fixpoint sift (i : nat) (zs : list (Z * option Z * string * string)) : list (nat * Z * Z) :=
  match zs with
  | [] => []
  | (a, m, Ba, Bb) :: rest =>
      match String.eqb Ba Bb, m with
      | true, Some mv => (i, a, mv) :: sift (S i) rest
      | _, _ => sift (S i) rest
      end
  end.

Definition sift_index (t : nat * Z * Z) : nat := t.1.1.
Definition sift_alice (t : nat * Z * Z) : Z := t.1.2.
Definition sift_bob (t : nat * Z * Z) : Z := t.2.

(** What a sifting function has to satisfy; stated once for the two copies of
    [extract_raw_key]. *)
Definition sifts_on_agreement
    (extract : list Z → list (option Z) → list string → list string →
               list Z * list Z * list nat) : Prop :=
  ∀ alice_bits measured alice_bases bob_bases,
    let '(raw_A, raw_B, kept) := extract alice_bits measured alice_bases bob_bases in
    (∀ i, i ∈ kept ↔
        ∃ a m B, alice_bits !! i = Some a ∧ measured !! i = Some (Some m) ∧
                 alice_bases !! i = Some B ∧ bob_bases !! i = Some B) ∧
    StronglySorted lt kept ∧
    (∀ j i, kept !! j = Some i →
        ∃ a m, alice_bits !! i = Some a ∧ measured !! i = Some (Some m) ∧
               raw_A !! j = Some a ∧ raw_B !! j = Some m).

Definition sifted_lengths
    (extract : list Z → list (option Z) → list string → list string →
               list Z * list Z * list nat) : Prop :=
  ∀ alice_bits measured alice_bases bob_bases,
    let '(raw_A, raw_B, kept) := extract alice_bits measured alice_bases bob_bases in
    length raw_A = length raw_B ∧ length raw_B = length kept ∧
    length kept ≤ length alice_bits ∧ length kept ≤ length measured ∧
    length kept ≤ length alice_bases ∧ length kept ≤ length bob_bases ∧
    StronglySorted lt kept.

(** A loop whose body appends one item per iteration and reads at most one
    cell of the generator: [cost x] cells are consumed at item [x], and the
    item appended is [h x w] for the cell [w] under the cursor. *)
Definition draws {A : Type} (cost : A → nat) (xs : list A) : nat :=
  foldr (λ x d, cost x + d) 0 xs.

Fixpoint outputs {A B : Type} (cost : A → nat) (h : A → N → B) (xs : list A) (g : Rng)
  : list B :=
  match xs with
  | [] => []
  | x :: xs' => h x (tape g (cursor g)) :: outputs cost h xs' (advance g (cost x))
  end.

(** One random bit is drawn at a position where the two bases differ, none
    where they agree; in [measure] it is the other way round. *)
Definition on_mismatch (x : Z * string * string) : nat :=
  let '(_, B1, B2) := x in if String.eqb B1 B2 then 0 else 1.

Definition on_match (x : Z * string * string) : nat :=
  let '(_, B1, B2) := x in if String.eqb B1 B2 then 1 else 0.

(** The bit [randint(0, 1)] makes of the cell it reads. *)
Definition random_bit (w : N) : Z := Z.of_N (w mod 2).

(** The item each of the three measuring loops appends at one position. *)
Definition measure_item (noise_flip_prob : float) (x : Z * string * string) (w : N)
  : option Z :=
  let '(bit, Ba, Bb) := x in
  if String.eqb Ba Bb then
    Some (if float_lt (unit_float (w mod 2 ^ 53)) noise_flip_prob then Z.lxor bit 1 else bit)
  else None.

Definition relay_item (x : Z * string * string) (w : N) : Z :=
  let '(bit, Ba, Be) := x in
  if String.eqb Ba Be then bit else random_bit w.

Definition bob_item (x : Z * string * string) (w : N) : option Z :=
  let '(bE, Be, Bb) := x in
  if String.eqb Be Bb then Some bE else Some (random_bit w).

(** The basis [random.choice(BASES)] makes of the cell it reads. *)
Definition random_basis (w : N) : string :=
  if (w mod 2 =? 0)%N then "R" else "D".

(** A bit proper: the [int] 0 or 1. *)
Definition is_bit (b : Z) : Prop := b = 0%Z ∨ b = 1%Z.

(** A generator on which every redraw loop ends: whatever has been read,
    every position below [n] is still going to be answered, for every [n]. *)
Definition fair (g : Rng) : Prop :=
  ∀ n c r, r < n → ∃ d, N.to_nat (tape g (c + d) mod N.of_nat n) = r.

(** A generator for the examples: its answers are 0, 1, 2, ... *)
Definition counting_rng : Rng := {| tape := N.of_nat; cursor := 0 |}.

(** The outcome is not an exception, and a value that is returned
    satisfies [P]. *)
Definition returning {A : Type} (P : A → Prop) (r : result A) : Prop :=
  match r with
  | Ok a => P a
  | Raise _ => False
  | OutOfFuel => True
  end.

(** What the honest [main] reports. *)
Definition honest_report (s : bb84_sim.Summary.t) : Prop :=
  bb84_sim.Summary.n_bits s = 1000%Z ∧
  (0 ≤ bb84_sim.Summary.n_matches s ≤ 1000)%Z ∧
  (bb84_sim.Summary.n_matches s + bb84_sim.Summary.n_discarded s = 1000)%Z ∧
  bb84_sim.Summary.raw_key_length s = bb84_sim.Summary.n_matches s ∧
  bb84_sim.Summary.mismatches s = 0%Z ∧
  bb84_sim.Summary.qber s = float_zero ∧
  ((bb84_sim.Summary.n_matches s = 0%Z ∧ bb84_sim.Summary.sample_size s = 0%Z) ∨
   (1 ≤ bb84_sim.Summary.sample_size s ≤ bb84_sim.Summary.n_matches s)%Z).

(** What the eavesdropper's [main] reports. *)
Definition eve_report (s : bb84_eve_sim.Summary.t) : Prop :=
  bb84_eve_sim.Summary.n_bits s = 1000%Z ∧
  (0 ≤ bb84_eve_sim.Summary.sifted_len s ≤ 1000)%Z ∧
  (bb84_eve_sim.Summary.sifted_len s + bb84_eve_sim.Summary.discarded s = 1000)%Z ∧
  (0 ≤ bb84_eve_sim.Summary.mismatches s ≤ bb84_eve_sim.Summary.sample_size s)%Z ∧
  (bb84_eve_sim.Summary.sample_size s ≤ bb84_eve_sim.Summary.sifted_len s)%Z ∧
  ((bb84_eve_sim.Summary.sifted_len s = 0%Z ∧ bb84_eve_sim.Summary.sample_size s = 0%Z) ∨
   (1 ≤ bb84_eve_sim.Summary.sample_size s)%Z) ∧
  bb84_eve_sim.Summary.expected_qber_no_eve s = float_zero ∧
  bb84_eve_sim.Summary.expected_qber_with_eve s =
    SFdiv prec emax (float_of_int 1) (float_of_int 4).

(** * Properties *)

(** ** The monad *)

Lemma run_bind {A B : Type} (m : M A) (k : A → M B) (g : Rng) :
  (m ≫= k) g = match m g with
               | (Ok a, g') => k a g'
               | (Raise e, g') => (Raise e, g')
               | (OutOfFuel, g') => (OutOfFuel, g')
               end.
Proof. reflexivity. Qed.

Lemma advance_0 (g : Rng) : advance g 0 = g.
Proof. destruct g as [t c]. unfold advance. simpl. f_equal. lia. Qed.

Lemma advance_advance (g : Rng) (a b : nat) : advance (advance g a) b = advance g (a + b).
Proof. unfold advance. simpl. f_equal. lia. Qed.

(** ** [zip] *)

Lemma zip3_lookup {A B C : Type} (xs : list A) (ys : list B) (zs : list C) i x y z :
  zip3 xs ys zs !! i = Some (x, y, z) ↔
  xs !! i = Some x ∧ ys !! i = Some y ∧ zs !! i = Some z.
Proof.
  revert ys zs i. induction xs as [|x0 xs IH]; intros ys zs i.
  - simpl. split; [discriminate | intros [H _]; discriminate].
  - destruct ys as [|y0 ys]; [simpl; split; [discriminate | intros (_ & H & _); discriminate]|].
    destruct zs as [|z0 zs]; [simpl; split; [discriminate | intros (_ & _ & H); discriminate]|].
    destruct i as [|i]; simpl.
    + split; [intros [= -> -> ->]; auto | intros ([= ->] & [= ->] & [= ->]); reflexivity].
    + apply IH.
Qed.

Lemma zip3_length {A B C : Type} (xs : list A) (ys : list B) (zs : list C) :
  length (zip3 xs ys zs) = length xs `min` (length ys `min` length zs).
Proof.
  revert ys zs. induction xs as [|x xs IH]; intros [|y ys] [|z zs]; simpl; try lia.
  rewrite IH. lia.
Qed.

Lemma zip4_lookup {A B C D : Type} (xs : list A) (ys : list B) (zs : list C) (ws : list D)
    i x y z w :
  zip4 xs ys zs ws !! i = Some (x, y, z, w) ↔
  xs !! i = Some x ∧ ys !! i = Some y ∧ zs !! i = Some z ∧ ws !! i = Some w.
Proof.
  revert ys zs ws i. induction xs as [|x0 xs IH]; intros ys zs ws i.
  - simpl. split; [discriminate | intros [H _]; discriminate].
  - destruct ys as [|y0 ys]; [simpl; split; [discriminate | intros (_ & H & _); discriminate]|].
    destruct zs as [|z0 zs]; [simpl; split; [discriminate | intros (_ & _ & H & _); discriminate]|].
    destruct ws as [|w0 ws]; [simpl; split; [discriminate | intros (_ & _ & _ & H); discriminate]|].
    destruct i as [|i]; simpl.
    + split; [intros [= -> -> -> ->]; auto
             | intros ([= ->] & [= ->] & [= ->] & [= ->]); reflexivity].
    + apply IH.
Qed.

Lemma zip4_length {A B C D : Type} (xs : list A) (ys : list B) (zs : list C) (ws : list D) :
  length (zip4 xs ys zs ws) =
  length xs `min` (length ys `min` (length zs `min` length ws)).
Proof.
  revert ys zs ws. induction xs as [|x xs IH]; intros [|y ys] [|z zs] [|w ws]; simpl;
    try lia.
  rewrite IH. lia.
Qed.

(** ** Sifting *)

Lemma extract_fold zs : ∀ i raw_A raw_B kept,
  fold_left bb84_sim.extract_step (zip (seq i (length zs)) zs) (raw_A, raw_B, kept) =
  (raw_A ++ (sift_alice <$> sift i zs),
   raw_B ++ (sift_bob <$> sift i zs),
   kept ++ (sift_index <$> sift i zs)).
Proof.
  induction zs as [|[[[a m] Ba] Bb] zs IH]; intros i raw_A raw_B kept.
  - simpl. now rewrite !app_nil_r.
  - cbn [length seq zip zip_with fold_left sift bb84_sim.extract_step].
    destruct (String.eqb Ba Bb); [destruct m as [mv|]|]; rewrite IH; try reflexivity.
    cbn [fmap list_fmap]. now rewrite <- !app_assoc.
Qed.

Lemma extract_raw_key_sift alice_bits measured alice_bases bob_bases :
  bb84_sim.extract_raw_key alice_bits measured alice_bases bob_bases =
  let s := sift 0 (zip4 alice_bits measured alice_bases bob_bases) in
  (sift_alice <$> s, sift_bob <$> s, sift_index <$> s).
Proof. unfold bb84_sim.extract_raw_key, enumerate. now rewrite extract_fold. Qed.

Lemma extract_raw_key_same :
  bb84_eve_sim.extract_raw_key = bb84_sim.extract_raw_key.
Proof. reflexivity. Qed.

Lemma sift_elem zs : ∀ i k a m,
  (k, a, m) ∈ sift i zs ↔ ∃ j B, k = i + j ∧ zs !! j = Some (a, Some m, B, B).
Proof.
  induction zs as [|[[[a0 m0] Ba] Bb] zs IH]; intros i k a m.
  - simpl. split; [intros H; inversion H | intros (j & B & _ & H); discriminate].
  - cbn [sift].
    assert (Hrest : (k, a, m) ∈ sift (S i) zs ↔
                    ∃ j B, k = i + S j ∧ zs !! j = Some (a, Some m, B, B)).
    { rewrite IH. split; intros (j & B & -> & H); exists j, B; split; auto; lia. }
    destruct (String.eqb_spec Ba Bb) as [->|Hne]; [destruct m0 as [mv|]|].
    + rewrite elem_of_cons, Hrest. split.
      * intros [[= -> -> ->]|(j & B & -> & H)].
        -- exists 0, Bb. split; [lia | reflexivity].
        -- exists (S j), B. auto.
      * intros ([|j] & B & -> & H); simpl in H.
        -- left. injection H as -> -> ->. now rewrite Nat.add_0_r.
        -- right. exists j, B. auto.
    + rewrite Hrest. split.
      * intros (j & B & -> & H). exists (S j), B. auto.
      * intros ([|j] & B & -> & H); simpl in H; [discriminate | exists j, B; auto].
    + rewrite Hrest. split.
      * intros (j & B & -> & H). exists (S j), B. auto.
      * intros ([|j] & B & -> & H); simpl in H; [congruence | exists j, B; auto].
Qed.

Lemma sift_index_ge zs : ∀ i, Forall (λ k, i ≤ k) (sift_index <$> sift i zs).
Proof.
  induction zs as [|[[[a m] Ba] Bb] zs IH]; intros i; cbn [sift].
  - constructor.
  - assert (Forall (λ k, i ≤ k) (sift_index <$> sift (S i) zs)).
    { eapply Forall_impl; [apply IH | simpl; lia]. }
    destruct (String.eqb Ba Bb); [destruct m|]; auto.
    constructor; [reflexivity | assumption].
Qed.

Lemma sift_sorted zs : ∀ i, StronglySorted lt (sift_index <$> sift i zs).
Proof.
  induction zs as [|[[[a m] Ba] Bb] zs IH]; intros i; cbn [sift].
  - constructor.
  - destruct (String.eqb Ba Bb); [destruct m|]; auto.
    constructor; [apply IH | apply (sift_index_ge zs (S i))].
Qed.

Lemma sift_length zs : ∀ i, length (sift i zs) ≤ length zs.
Proof.
  induction zs as [|[[[a m] Ba] Bb] zs IH]; intros i; cbn [sift]; [reflexivity|].
  specialize (IH (S i)).
  destruct (String.eqb Ba Bb); [destruct m|]; simpl; lia.
Qed.

Lemma extract_raw_key_sifts_on_agreement : sifts_on_agreement bb84_sim.extract_raw_key.
Proof.
  intros alice_bits measured alice_bases bob_bases.
  rewrite extract_raw_key_sift. cbv beta iota zeta.
  set (zs := zip4 alice_bits measured alice_bases bob_bases).
  split; [|split].
  - intros i. rewrite list_elem_of_fmap. split.
    + intros ([[k a] m] & -> & Hin). apply sift_elem in Hin as (j & B & -> & Hj).
      apply zip4_lookup in Hj. exists a, m, B. exact Hj.
    + intros (a & m & B & H). exists (i, a, m). split; [reflexivity|].
      apply sift_elem. exists i, B. split; [reflexivity|]. now apply zip4_lookup.
  - apply sift_sorted.
  - intros j i Hj. rewrite list_lookup_fmap in Hj.
    destruct (sift 0 zs !! j) as [[[k a] m]|] eqn:E; [|discriminate].
    injection Hj as <-.
    assert (Hin : (k, a, m) ∈ sift 0 zs) by (apply list_elem_of_lookup; eauto).
    apply sift_elem in Hin as (j' & B & -> & Hz). apply zip4_lookup in Hz as (Ha & Hm & _).
    exists a, m. rewrite !list_lookup_fmap, E. auto.
Qed.

Lemma extract_raw_key_sifted_lengths : sifted_lengths bb84_sim.extract_raw_key.
Proof.
  intros alice_bits measured alice_bases bob_bases.
  rewrite extract_raw_key_sift. cbv beta iota zeta.
  pose proof (sift_length (zip4 alice_bits measured alice_bases bob_bases) 0) as Hlen.
  rewrite zip4_length in Hlen. rewrite !length_fmap.
  repeat split; try lia. apply sift_sorted.
Qed.

(** ** Loops that append *)

Section Loops.
Context {A B : Type}.
Variable cost : A → nat.
Variable h : A → N → B.
Variable body : list B → A → M (list B).
Hypothesis body_appends : ∀ s x g,
  body s x g = (Ok (s ++ [h x (tape g (cursor g))]), advance g (cost x)).

Lemma for_each_outputs xs : ∀ s g,
  for_each xs body s g = (Ok (s ++ outputs cost h xs g), advance g (draws cost xs)).
Proof.
  induction xs as [|x xs IH]; intros s g.
  - simpl. now rewrite app_nil_r, advance_0.
  - cbn [for_each outputs draws foldr]. rewrite run_bind, body_appends, IH.
    now rewrite <- app_assoc, advance_advance.
Qed.

Lemma outputs_length xs : ∀ g, length (outputs cost h xs g) = length xs.
Proof. induction xs as [|x xs IH]; intros g; simpl; [reflexivity | now rewrite IH]. Qed.

Lemma outputs_lookup xs : ∀ g i x,
  xs !! i = Some x →
  outputs cost h xs g !! i =
  Some (h x (tape g (cursor g + draws cost (take i xs)))).
Proof.
  induction xs as [|x0 xs IH]; intros g i x Hx; [discriminate|].
  destruct i as [|i]; simpl in Hx |- *.
  - injection Hx as ->. now rewrite Nat.add_0_r.
  - rewrite (IH _ _ _ Hx). simpl. now rewrite Nat.add_assoc.
Qed.
End Loops.

(** ** The random module *)

Lemma randint_0_1 (g : Rng) :
  randint 0 1 g = (Ok (random_bit (tape g (cursor g))), advance g 1).
Proof.
  unfold randint, randbelow, random_bit. cbn [Z.ltb Z.compare].
  rewrite !run_bind. cbn [next_word ret].
  replace (N.of_nat (Z.to_nat (1 - 0 + 1))) with 2%N by reflexivity.
  now rewrite N_nat_Z.
Qed.

Lemma random_bit_range (w : N) : random_bit w = 0%Z ∨ random_bit w = 1%Z.
Proof.
  unfold random_bit.
  assert (H : (w mod 2 < 2)%N) by (apply N.mod_upper_bound; discriminate).
  revert H. generalize (w mod 2)%N. intros r H. lia.
Qed.

Lemma binary_round_aux_not_negative m e l :
  SFltb (binary_round_aux prec emax false m e l) (S754_zero false) = false.
Proof.
  unfold binary_round_aux.
  destruct (shr_fexp prec emax m e l) as [mrs e'].
  destruct (shr_fexp prec emax _ e' loc_Exact) as [mrs' e''].
  destruct (shr_m mrs') as [|p|p]; [reflexivity| |reflexivity].
  destruct (e'' <=? emax - prec)%Z; reflexivity.
Qed.

(** [random.random()] is never below [0.0]. *)
Lemma unit_float_not_negative (k : N) : float_lt (unit_float k) float_zero = false.
Proof.
  unfold float_lt, unit_float, float_zero, binary_normalize.
  destruct (Z.of_N k) as [|p|p] eqn:E; [reflexivity| |lia].
  unfold binary_round. destruct (shl_align _ _ _) as [mz ez].
  apply binary_round_aux_not_negative.
Qed.

(** ** The three measuring loops *)

Lemma measure_run bits alice_bases bob_bases noise_flip_prob g :
  let zs := zip3 bits alice_bases bob_bases in
  bb84_sim.measure bits alice_bases bob_bases noise_flip_prob g =
  (Ok (outputs on_match (measure_item noise_flip_prob) zs g), advance g (draws on_match zs)).
Proof.
  intros zs. unfold bb84_sim.measure.
  rewrite (for_each_outputs on_match (measure_item noise_flip_prob)); [reflexivity|].
  intros s [[bit Ba] Bb] g0. unfold on_match, measure_item.
  destruct (String.eqb Ba Bb).
  - reflexivity.
  - cbn [ret]. now rewrite advance_0.
Qed.

Lemma eve_intercept_resend_run alice_bits alice_bases eve_bases g :
  let zs := zip3 alice_bits alice_bases eve_bases in
  bb84_eve_sim.eve_intercept_resend alice_bits alice_bases eve_bases g =
  (Ok (outputs on_mismatch relay_item zs g, eve_bases), advance g (draws on_mismatch zs)).
Proof.
  intros zs. unfold bb84_eve_sim.eve_intercept_resend.
  rewrite run_bind, (for_each_outputs on_mismatch relay_item); [reflexivity|].
  intros s [[bit Ba] Be] g0. unfold on_mismatch, relay_item. rewrite run_bind.
  destruct (String.eqb Ba Be).
  - cbn [ret]. now rewrite advance_0.
  - now rewrite randint_0_1.
Qed.

Lemma bob_measure_against_eve_run bits_from_eve eve_bases bob_bases g :
  let zs := zip3 bits_from_eve eve_bases bob_bases in
  bb84_eve_sim.bob_measure_against_eve bits_from_eve eve_bases bob_bases g =
  (Ok (outputs on_mismatch bob_item zs g), advance g (draws on_mismatch zs)).
Proof.
  intros zs. unfold bb84_eve_sim.bob_measure_against_eve.
  rewrite (for_each_outputs on_mismatch bob_item); [reflexivity|].
  intros s [[bE Be] Bb] g0. unfold on_mismatch, bob_item.
  destruct (String.eqb Be Bb).
  - cbn [ret]. now rewrite advance_0.
  - now rewrite run_bind, randint_0_1.
Qed.

Lemma outputs_zip3_lookup {A B C D : Type} (cost : A * B * C → nat) (h : A * B * C → N → D)
    (xs : list A) (ys : list B) (zs : list C) g i x y z :
  xs !! i = Some x → ys !! i = Some y → zs !! i = Some z →
  outputs cost h (zip3 xs ys zs) g !! i =
  Some (h (x, y, z) (tape g (cursor g + draws cost (take i (zip3 xs ys zs))))).
Proof.
  intros Hx Hy Hz. apply outputs_lookup. now apply zip3_lookup.
Qed.

Lemma measure_item_noiseless bit Ba Bb w :
  measure_item float_zero (bit, Ba, Bb) w = if String.eqb Ba Bb then Some bit else None.
Proof.
  unfold measure_item. destruct (String.eqb Ba Bb); [|reflexivity].
  now rewrite unit_float_not_negative.
Qed.

Lemma bob_item_defined zs : ∀ g, None ∉ outputs on_mismatch bob_item zs g.
Proof.
  induction zs as [|[[bE Be] Bb] zs IH]; intros g; cbn [outputs].
  - apply not_elem_of_nil.
  - rewrite not_elem_of_cons. split; [|apply IH].
    unfold bob_item. destruct (String.eqb Be Bb); discriminate.
Qed.

(** ** The honest channel *)

(** C3. With [noise_flip_prob = 0.0], [measure] returns, and the raw keys
    sifted from its output are equal: Alice's and Bob's bits are the same at
    every index of the raw key, whatever the length of the input. *)
Theorem honest_channel_raw_keys_agree (bits : list Z) (alice_bases bob_bases : list string)
    (g : Rng) :
  ∃ measured g',
    bb84_sim.measure bits alice_bases bob_bases float_zero g = (Ok measured, g') ∧
    let '(raw_A, raw_B, kept) :=
      bb84_sim.extract_raw_key bits measured alice_bases bob_bases in
    raw_A = raw_B ∧ ∀ j : nat, raw_A !! j = raw_B !! j.
Proof.
  eexists _, _. split; [apply measure_run|].
  rewrite extract_raw_key_sift. cbv beta iota zeta.
  set (measured := outputs _ _ _ _).
  assert (Heq : sift_alice <$> sift 0 (zip4 bits measured alice_bases bob_bases) =
                sift_bob <$> sift 0 (zip4 bits measured alice_bases bob_bases)).
  { apply list_fmap_ext. intros j [[k a] m] Hj.
    assert (Hin : (k, a, m) ∈ sift 0 (zip4 bits measured alice_bases bob_bases))
      by (apply list_elem_of_lookup; eauto).
    apply sift_elem in Hin as (i & B & -> & Hz).
    apply zip4_lookup in Hz as (Ha & Hm & HBa & HBb).
    unfold measured in Hm.
    rewrite (outputs_zip3_lookup _ _ _ _ _ _ _ _ _ _ Ha HBa HBb) in Hm.
    rewrite measure_item_noiseless, String.eqb_refl in Hm.
    unfold sift_alice, sift_bob. simpl. congruence. }
  split; [exact Heq | intros j; now rewrite Heq].
Qed.

(** ** The eavesdropper *)

(** C8. [eve_intercept_resend] returns, its second component is [eve_bases]
    itself, and at every position of its first component stands Alice's bit
    where Eve's basis equals Alice's, and otherwise the bit, 0 or 1, that a
    call of [randint(0, 1)] of its own delivers: the call made on the
    generator as the draws of the earlier mismatching positions left it. *)
Theorem eve_relays_in_her_own_bases (alice_bits : list Z) (alice_bases eve_bases : list string)
    (g : Rng) :
  ∃ out_bits g',
    bb84_eve_sim.eve_intercept_resend alice_bits alice_bases eve_bases g =
      (Ok (out_bits, eve_bases), g') ∧
    length out_bits =
      length alice_bits `min` (length alice_bases `min` length eve_bases) ∧
    ∀ i bit Ba Be,
      alice_bits !! i = Some bit → alice_bases !! i = Some Ba → eve_bases !! i = Some Be →
      (Ba = Be → out_bits !! i = Some bit) ∧
      (Ba ≠ Be →
         ∃ r, out_bits !! i = Some r ∧ (r = 0 ∨ r = 1)%Z ∧
              let earlier := take i (zip3 alice_bits alice_bases eve_bases) in
              randint 0 1 (advance g (draws on_mismatch earlier)) =
                (Ok r, advance g (S (draws on_mismatch earlier)))).
Proof.
  eexists _, _. split; [apply eve_intercept_resend_run|].
  split; [now rewrite outputs_length, zip3_length|].
  intros i bit Ba Be Hbit HBa HBe.
  rewrite (outputs_zip3_lookup _ _ _ _ _ _ _ _ _ _ Hbit HBa HBe).
  unfold relay_item. split.
  - intros ->. now rewrite String.eqb_refl.
  - intros Hne. apply String.eqb_neq in Hne. rewrite Hne.
    eexists. split; [reflexivity|]. split; [apply random_bit_range|].
    cbv zeta. rewrite randint_0_1, advance_advance.
    cbn [advance tape cursor]. now rewrite Nat.add_1_r.
Qed.

Lemma eve_relays_in_her_own_bases_witness :
  ∃ out_bits g',
    bb84_eve_sim.eve_intercept_resend [1; 0]%Z ["R"; "D"] ["R"; "R"] counting_rng =
      (Ok (out_bits, ["R"; "R"]), g') ∧
    out_bits !! 0 = Some 1%Z ∧
    ∃ r, out_bits !! 1 = Some r ∧ (r = 0 ∨ r = 1)%Z.
Proof.
  destruct (eve_relays_in_her_own_bases [1; 0]%Z ["R"; "D"] ["R"; "R"] counting_rng)
    as (out_bits & g' & Hrun & _ & Hpos).
  exists out_bits, g'. split; [exact Hrun|]. split.
  - apply (Hpos 0 1%Z "R" "R"); reflexivity.
  - destruct (Hpos 1 0%Z "D" "R" eq_refl eq_refl eq_refl) as [_ Hrandom].
    destruct Hrandom as (r & Hr & Hrange & _); [discriminate|].
    exists r. split; assumption.
Defined.

(** C2. Run as [main] does, Eve's relay followed by Bob's measurement of
    what she sent: at every position where Eve's basis equals Alice's and
    Bob's basis equals Eve's, Bob's measured bit is Alice's original bit. *)
Theorem chain_fully_correlated (alice_bits : list Z)
    (alice_bases eve_bases bob_bases : list string) (g : Rng) :
  ∃ bits_to_bob bases_to_bob bob_measured g1 g2,
    bb84_eve_sim.eve_intercept_resend alice_bits alice_bases eve_bases g =
      (Ok (bits_to_bob, bases_to_bob), g1) ∧
    bb84_eve_sim.bob_measure_against_eve bits_to_bob bases_to_bob bob_bases g1 =
      (Ok bob_measured, g2) ∧
    ∀ i a Ba Be Bb,
      alice_bits !! i = Some a → alice_bases !! i = Some Ba →
      eve_bases !! i = Some Be → bob_bases !! i = Some Bb →
      Be = Ba → Bb = Be →
      bob_measured !! i = Some (Some a).
Proof.
  eexists _, _, _, _, _.
  split; [apply eve_intercept_resend_run|].
  split; [apply bob_measure_against_eve_run|].
  intros i a Ba Be Bb Ha HBa HBe HBb -> ->.
  pose proof (outputs_zip3_lookup on_mismatch relay_item _ _ _ g _ _ _ _ Ha HBa HBe) as Heve.
  rewrite (outputs_zip3_lookup _ _ _ _ _ _ _ _ _ _ Heve HBe HBb).
  unfold bob_item, relay_item. now rewrite String.eqb_refl.
Qed.

Lemma chain_fully_correlated_witness :
  ∃ bits_to_bob bases_to_bob bob_measured g1 g2,
    bb84_eve_sim.eve_intercept_resend [1; 0]%Z ["D"; "R"] ["D"; "D"] counting_rng =
      (Ok (bits_to_bob, bases_to_bob), g1) ∧
    bb84_eve_sim.bob_measure_against_eve bits_to_bob bases_to_bob ["D"; "R"] g1 =
      (Ok bob_measured, g2) ∧
    bob_measured !! 0 = Some (Some 1%Z).
Proof.
  destruct (chain_fully_correlated [1; 0]%Z ["D"; "R"] ["D"; "D"] ["D"; "R"] counting_rng)
    as (bits_to_bob & bases_to_bob & bob_measured & g1 & g2 & Heve & Hbob & Hpos).
  exists bits_to_bob, bases_to_bob, bob_measured, g1, g2.
  split; [exact Heve|]. split; [exact Hbob|].
  apply (Hpos 0 1%Z "D" "D" "D"); reflexivity.
Defined.

(** C10. [bob_measure_against_eve] returns a list without [None]; and when
    [extract_raw_key] sifts that list in the run of [main], it keeps exactly
    the positions (of the zipped inputs) at which Alice's and Bob's bases
    agree. *)
Theorem bob_measures_every_position :
  (∀ (bits_from_eve : list Z) (eve_bases bob_bases : list string) (g : Rng),
     ∃ measured g',
       bb84_eve_sim.bob_measure_against_eve bits_from_eve eve_bases bob_bases g =
         (Ok measured, g') ∧
       None ∉ measured) ∧
  (∀ (alice_bits : list Z) (alice_bases eve_bases bob_bases : list string) (g : Rng),
     ∃ bits_to_bob bases_to_bob bob_measured g1 g2,
       bb84_eve_sim.eve_intercept_resend alice_bits alice_bases eve_bases g =
         (Ok (bits_to_bob, bases_to_bob), g1) ∧
       bb84_eve_sim.bob_measure_against_eve bits_to_bob bases_to_bob bob_bases g1 =
         (Ok bob_measured, g2) ∧
       let '(_, _, kept) :=
         bb84_eve_sim.extract_raw_key alice_bits bob_measured alice_bases bob_bases in
       ∀ i : nat,
         i ∈ kept ↔
         i < length alice_bits ∧ i < length eve_bases ∧
         ∃ B, alice_bases !! i = Some B ∧ bob_bases !! i = Some B).
Proof.
  split.
  - intros bits_from_eve eve_bases bob_bases g. eexists _, _.
    split; [apply bob_measure_against_eve_run | apply bob_item_defined].
  - intros alice_bits alice_bases eve_bases bob_bases g. eexists _, _, _, _, _.
    split; [apply eve_intercept_resend_run|].
    split; [apply bob_measure_against_eve_run|].
    set (bits_to_bob := outputs on_mismatch relay_item _ g).
    set (bob_measured := outputs on_mismatch bob_item _ _).
    pose proof (extract_raw_key_sifts_on_agreement
                  alice_bits bob_measured alice_bases bob_bases) as Hsift.
    rewrite extract_raw_key_same.
    destruct (bb84_sim.extract_raw_key _ _ _ _) as [[raw_A raw_B] kept].
    destruct Hsift as (Hkept & _ & _).
    intros i. rewrite Hkept. split.
    + intros (a & m & B & Ha & Hm & HBa & HBb).
      apply lookup_lt_Some in Ha. apply lookup_lt_Some in Hm.
      unfold bob_measured in Hm. rewrite outputs_length, zip3_length in Hm.
      split; [lia|]. split; [lia|]. eauto.
    + intros (Hla & Hle & B & HBa & HBb).
      destruct (lookup_lt_is_Some_2 alice_bits i Hla) as [a Ha].
      destruct (lookup_lt_is_Some_2 eve_bases i Hle) as [Be HBe].
      pose proof (outputs_zip3_lookup on_mismatch relay_item _ _ _ g _ _ _ _ Ha HBa HBe)
        as Heve.
      pose proof (outputs_zip3_lookup on_mismatch bob_item _ _ _
                    (advance g (draws on_mismatch (zip3 alice_bits alice_bases eve_bases)))
                    _ _ _ _ Heve HBe HBb) as Hbob.
      fold bits_to_bob in Hbob. fold bob_measured in Hbob.
      unfold bob_item in Hbob at 1.
      destruct (String.eqb Be B); eauto 10.
Qed.

Lemma bob_measures_every_position_witness :
  ∃ bits_to_bob bases_to_bob bob_measured g1 g2,
    bb84_eve_sim.eve_intercept_resend [1%Z] ["R"] ["D"] counting_rng =
      (Ok (bits_to_bob, bases_to_bob), g1) ∧
    bb84_eve_sim.bob_measure_against_eve bits_to_bob bases_to_bob ["R"] g1 =
      (Ok bob_measured, g2) ∧
    0 ∈ (bb84_eve_sim.extract_raw_key [1%Z] bob_measured ["R"] ["R"]).2.
Proof.
  destruct (proj2 bob_measures_every_position [1%Z] ["R"] ["D"] ["R"] counting_rng)
    as (bits_to_bob & bases_to_bob & bob_measured & g1 & g2 & Heve & Hbob & Hkept).
  exists bits_to_bob, bases_to_bob, bob_measured, g1, g2.
  split; [exact Heve|]. split; [exact Hbob|].
  destruct (bb84_eve_sim.extract_raw_key _ _ _ _) as [[raw_A raw_B] kept].
  apply Hkept. simpl. split; [lia|]. split; [lia|]. exists "R". split; reflexivity.
Defined.

(** ** Inputs of unequal length *)

Lemma Ok_not_raises {A : Type} (a : A) : ¬ raises (Ok a).
Proof. intros [e He]. discriminate He. Qed.

(** C4, as stated, fails: on inputs of lengths 2, 1 and 2 (and 2, 1, 1, 2
    for the sifting) no component raises; each returns normally, having
    processed the first position. *)
Lemma length_mismatch_not_rejected :
  (¬ raises (bb84_sim.measure [0; 1]%Z ["R"] ["R"; "D"] float_zero counting_rng).1 ∧
   (bb84_sim.measure [0; 1]%Z ["R"] ["R"; "D"] float_zero counting_rng).1 =
     Ok [Some 0%Z]) ∧
  (¬ raises (bb84_eve_sim.eve_intercept_resend [0; 1]%Z ["R"] ["R"; "D"] counting_rng).1 ∧
   (bb84_eve_sim.eve_intercept_resend [0; 1]%Z ["R"] ["R"; "D"] counting_rng).1 =
     Ok ([0%Z], ["R"; "D"])) ∧
  (¬ raises (bb84_eve_sim.bob_measure_against_eve [0; 1]%Z ["R"] ["R"; "D"] counting_rng).1 ∧
   (bb84_eve_sim.bob_measure_against_eve [0; 1]%Z ["R"] ["R"; "D"] counting_rng).1 =
     Ok [Some 0%Z]) ∧
  bb84_sim.extract_raw_key [0; 1]%Z [Some 0%Z] ["R"] ["R"; "D"] = ([0%Z], [0%Z], [0]) ∧
  bb84_eve_sim.extract_raw_key [0; 1]%Z [Some 0%Z] ["R"] ["R"; "D"] = ([0%Z], [0%Z], [0]).
Proof.
  assert (Hmeasure : (bb84_sim.measure [0; 1]%Z ["R"] ["R"; "D"] float_zero counting_rng).1 =
                     Ok [Some 0%Z]) by (vm_compute; reflexivity).
  assert (Heve : (bb84_eve_sim.eve_intercept_resend [0; 1]%Z ["R"] ["R"; "D"] counting_rng).1 =
                 Ok ([0%Z], ["R"; "D"])) by (vm_compute; reflexivity).
  assert (Hbob : (bb84_eve_sim.bob_measure_against_eve [0; 1]%Z ["R"] ["R"; "D"]
                    counting_rng).1 = Ok [Some 0%Z]) by (vm_compute; reflexivity).
  rewrite Hmeasure, Heve, Hbob.
  repeat split; try apply Ok_not_raises; vm_compute; reflexivity.
Qed.

(** C4, amended. No component checks the lengths of its inputs: each one
    iterates over their [zip], hence over the positions below the shortest
    length, and returns normally.  The three measuring functions return one
    item per such position ([eve_intercept_resend] together with the whole of
    [eve_bases]); both copies of [extract_raw_key] keep only such
    positions. *)
Theorem components_process_common_prefix :
  (∀ bits alice_bases bob_bases noise_flip_prob g,
     ∃ measured g',
       bb84_sim.measure bits alice_bases bob_bases noise_flip_prob g = (Ok measured, g') ∧
       length measured = length bits `min` (length alice_bases `min` length bob_bases)) ∧
  (∀ alice_bits alice_bases eve_bases g,
     ∃ out_bits g',
       bb84_eve_sim.eve_intercept_resend alice_bits alice_bases eve_bases g =
         (Ok (out_bits, eve_bases), g') ∧
       length out_bits =
         length alice_bits `min` (length alice_bases `min` length eve_bases)) ∧
  (∀ bits_from_eve eve_bases bob_bases g,
     ∃ measured g',
       bb84_eve_sim.bob_measure_against_eve bits_from_eve eve_bases bob_bases g =
         (Ok measured, g') ∧
       length measured =
         length bits_from_eve `min` (length eve_bases `min` length bob_bases)) ∧
  (∀ alice_bits measured alice_bases bob_bases,
     Forall (λ i, i < length alice_bits `min` (length measured `min`
                      (length alice_bases `min` length bob_bases)))
            (bb84_sim.extract_raw_key alice_bits measured alice_bases bob_bases).2) ∧
  (∀ alice_bits bob_meas alice_bases bob_bases,
     Forall (λ i, i < length alice_bits `min` (length bob_meas `min`
                      (length alice_bases `min` length bob_bases)))
            (bb84_eve_sim.extract_raw_key alice_bits bob_meas alice_bases bob_bases).2).
Proof.
  assert (Hextract : ∀ alice_bits measured alice_bases bob_bases,
    Forall (λ i, i < length alice_bits `min` (length measured `min`
                     (length alice_bases `min` length bob_bases)))
           (bb84_sim.extract_raw_key alice_bits measured alice_bases bob_bases).2).
  { intros alice_bits measured alice_bases bob_bases.
    pose proof (extract_raw_key_sifts_on_agreement
                  alice_bits measured alice_bases bob_bases) as Hsift.
    destruct (bb84_sim.extract_raw_key _ _ _ _) as [[raw_A raw_B] kept].
    destruct Hsift as (Hkept & _ & _). cbn [snd].
    apply Forall_forall. intros i Hi.
    apply Hkept in Hi as (a & m & B & Ha & Hm & HBa & HBb).
    apply lookup_lt_Some in Ha, Hm, HBa, HBb. lia. }
  split; [|split; [|split; [|split]]].
  - intros. eexists _, _. split; [apply measure_run|].
    now rewrite outputs_length, zip3_length.
  - intros. eexists _, _. split; [apply eve_intercept_resend_run|].
    now rewrite outputs_length, zip3_length.
  - intros. eexists _, _. split; [apply bob_measure_against_eve_run|].
    now rewrite outputs_length, zip3_length.
  - exact Hextract.
  - rewrite extract_raw_key_same. exact Hextract.
Qed.


(** ** Sampling without replacement *)

Lemma randbelow_run (n : nat) (g : Rng) :
  randbelow n g = (Ok (N.to_nat (tape g (cursor g) mod N.of_nat n)), advance g 1).
Proof. reflexivity. Qed.

Lemma randbelow_lt (n : nat) (w : N) : 0 < n → N.to_nat (w mod N.of_nat n) < n.
Proof.
  intros Hn.
  assert (H : (w mod N.of_nat n < N.of_nat n)%N) by (apply N.mod_upper_bound; lia).
  revert H. generalize (w mod N.of_nat n)%N. intros r H. lia.
Qed.

(** One step of the partial shuffle takes [x] out of the live part of the
    pool and leaves the other live items, in some order. *)
Lemma pool_step_permutation {A : Type} (pool : list A) (live j : nat) (x y : A) :
  j < live →
  pool !! j = Some x → pool !! (live - 1) = Some y →
  take live pool ≡ₚ x :: take (live - 1) (<[j := y]> pool).
Proof.
  intros Hj Hx Hy. destruct live as [|l]; [lia|].
  replace (S l - 1) with l in * by lia.
  rewrite (take_S_r _ _ _ Hy), <- Permutation_cons_append.
  destruct (decide (j = l)) as [->|Hne].
  - assert (x = y) as -> by congruence. rewrite list_insert_id by assumption.
    reflexivity.
  - assert (Hjl : j < l) by lia.
    pose proof (lookup_lt_Some _ _ _ Hy) as Hl.
    rewrite take_insert_lt by assumption.
    set (t := take l pool).
    assert (Ht : t !! j = Some x) by (unfold t; now rewrite lookup_take_lt).
    assert (Hlen : j < length t) by (unfold t; rewrite length_take; lia).
    rewrite (insert_take_drop _ _ _ Hlen), <- Permutation_middle.
    rewrite (delete_Permutation _ _ _ Ht) at 1. rewrite delete_take_drop.
    apply perm_swap.
Qed.

Lemma sample_pool_run {A : Type} (k : nat) : ∀ (pool : list A) (live : nat) (g : Rng),
  k ≤ live → live ≤ length pool →
  ∃ res, sample_pool pool live k g = (Ok res, advance g k) ∧
         length res = k ∧ res ⊆+ take live pool.
Proof.
  induction k as [|k IH]; intros pool live g Hk Hlive.
  - exists []. cbn [sample_pool ret]. rewrite advance_0.
    split; [reflexivity|]. split; [reflexivity | apply submseteq_nil_l].
  - cbn [sample_pool]. rewrite run_bind, randbelow_run.
    set (j := N.to_nat _).
    assert (Hj : j < live) by (apply randbelow_lt; lia).
    destruct (lookup_lt_is_Some_2 pool j) as [x Hx]; [lia|].
    destruct (lookup_lt_is_Some_2 pool (live - 1)) as [y Hy]; [lia|].
    rewrite Hx, Hy, run_bind.
    destruct (IH (<[j := y]> pool) (live - 1) (advance g 1)) as (res & Hrun & Hlen & Hsub);
      [lia | rewrite length_insert; lia |].
    rewrite Hrun. exists (x :: res). cbn [ret]. rewrite advance_advance.
    split; [reflexivity|]. split; [simpl; now rewrite Hlen|].
    rewrite (pool_step_permutation pool live j x y Hj Hx Hy).
    now apply submseteq_skip.
Qed.

Lemma submseteq_NoDup_l {A : Type} (l k : list A) : l ⊆+ k → NoDup k → NoDup l.
Proof.
  intros Hsub Hk. apply submseteq_Permutation in Hsub as [k' Hperm].
  rewrite Hperm in Hk. now apply NoDup_app in Hk as (Hl & _).
Qed.

(** The branch for small populations always returns. *)
Lemma random_sample_pool (fuel n : nat) (k : Z) (g : Rng) :
  (0 ≤ k ≤ Z.of_nat n)%Z → (Z.of_nat n ≤ setsize k)%Z →
  ∃ idxs, random_sample fuel (range n) k g = (Ok idxs, advance g (Z.to_nat k)) ∧
          Z.of_nat (length idxs) = k ∧ NoDup idxs ∧ Forall (λ i, i < n) idxs.
Proof.
  intros Hk Hsmall. unfold random_sample, range. rewrite length_seq.
  replace (0 <=? k)%Z with true by (symmetry; apply Z.leb_le; lia).
  replace (k <=? Z.of_nat n)%Z with true by (symmetry; apply Z.leb_le; lia).
  replace (Z.of_nat n <=? setsize k)%Z with true by (symmetry; apply Z.leb_le; lia).
  cbn [andb negb].
  destruct (sample_pool_run (Z.to_nat k) (seq 0 n) n g) as (idxs & Hrun & Hlen & Hsub);
    [lia | now rewrite length_seq |].
  rewrite take_ge in Hsub by now rewrite length_seq.
  exists idxs. split; [exact Hrun|]. split; [lia|]. split.
  - eapply submseteq_NoDup_l; [exact Hsub | apply NoDup_seq].
  - apply Forall_forall. intros i Hi.
    apply (elem_of_submseteq _ _ _ Hi) in Hsub. apply elem_of_seq in Hsub. lia.
Qed.

Lemma is_selected_true (j : nat) (selected : list nat) :
  is_selected j selected = true ↔ j ∈ selected.
Proof.
  unfold is_selected. rewrite existsb_exists, list_elem_of_In. split.
  - intros (x & Hx & Heq). apply Nat.eqb_eq in Heq. now subst.
  - intros Hj. exists j. split; [exact Hj | apply Nat.eqb_refl].
Qed.

Lemma is_selected_false (j : nat) (selected : list nat) :
  is_selected j selected = false ↔ j ∉ selected.
Proof.
  rewrite <- is_selected_true. destruct (is_selected j selected); split;
    congruence || (intros H; exfalso; now apply H).
Qed.

(** What the redraw loop returns is a new position: the one it was entered
    with, or an answer of [randbelow(n)]. *)
Lemma redraw_sound (n : nat) (selected : list nat) (fuel : nat) : ∀ (j : nat) (g : Rng),
  0 < n →
  returning (λ j1, (j1 ∉ selected) ∧ (j1 = j ∨ j1 < n)) (redraw fuel n selected j g).1.
Proof.
  induction fuel as [|fuel IH]; intros j g Hn; cbn [redraw];
    destruct (is_selected j selected) eqn:Hsel;
    try (apply is_selected_false in Hsel; cbn; auto; fail).
  - exact I.
  - rewrite run_bind, randbelow_run.
    specialize (IH (N.to_nat (tape g (cursor g) mod N.of_nat n)) (advance g 1) Hn).
    destruct (redraw fuel n selected _ (advance g 1)) as [[j'|e|] g']; cbn in IH |- *;
      try exact IH.
    destruct IH as [Hnew [->|Hlt]]; (split; [exact Hnew | right]);
      [now apply randbelow_lt | exact Hlt].
Qed.

(** The branch for large populations, on [range(n)]: it never raises, and
    what it returns are positions below [n], new and pairwise distinct. *)
Lemma sample_set_sound (fuel n : nat) (k : nat) : ∀ (selected : list nat) (g : Rng),
  k = 0 ∨ 0 < n →
  returning (λ res, length res = k ∧ NoDup res ∧ Forall (λ i, i < n ∧ i ∉ selected) res)
    (sample_set fuel (seq 0 n) n selected k g).1.
Proof.
  induction k as [|k IH]; intros selected g Hn.
  - cbn. repeat split; constructor.
  - destruct Hn as [|Hn]; [discriminate|].
    cbn [sample_set]. rewrite run_bind, randbelow_run, run_bind.
    pose proof (redraw_sound n selected fuel
                  (N.to_nat (tape g (cursor g) mod N.of_nat n)) (advance g 1) Hn) as Hj.
    destruct (redraw fuel n selected _ (advance g 1)) as [[j|e|] g1]; cbn in Hj |- *;
      try exact Hj.
    destruct Hj as [Hnew Hlt].
    assert (Hjn : j < n) by (destruct Hlt as [->|Hlt]; [now apply randbelow_lt | exact Hlt]).
    rewrite lookup_seq_lt by exact Hjn. cbn [Nat.add]. rewrite run_bind.
    specialize (IH (j :: selected) g1 (or_intror Hn)).
    destruct (sample_set fuel (seq 0 n) n (j :: selected) k g1) as [[rest|e|] g2];
      cbn in IH |- *; try exact IH.
    destruct IH as (Hlen & Hnd & Hall).
    split; [now rewrite Hlen|]. split.
    + constructor; [|exact Hnd].
      intros Hin. rewrite Forall_forall in Hall. destruct (Hall j Hin) as [_ Hnot].
      apply Hnot, list_elem_of_here.
    + constructor; [auto|].
      eapply Forall_impl; [exact Hall|]. intros i [Hi Hnot]. split; [exact Hi|].
      intros Hin. apply Hnot. now apply list_elem_of_further.
Qed.

(** [random.sample(range(n), k)] with [0 <= k <= n]: it never raises, and
    what it returns are [k] pairwise distinct positions below [n].  The
    redraws can only be exhausted in the branch for large populations. *)
Lemma random_sample_sound (fuel n : nat) (k : Z) (g : Rng) :
  (0 ≤ k ≤ Z.of_nat n)%Z →
  match random_sample fuel (range n) k g with
  | (Ok idxs, _) =>
      Z.of_nat (length idxs) = k ∧ NoDup idxs ∧ Forall (λ i, i < n) idxs
  | (Raise _, _) => False
  | (OutOfFuel, _) => (setsize k < Z.of_nat n)%Z
  end.
Proof.
  intros Hk. destruct (Z.leb_spec (Z.of_nat n) (setsize k)) as [Hsmall|Hlarge].
  - destruct (random_sample_pool fuel n k g Hk Hsmall) as (idxs & -> & Hprops).
    exact Hprops.
  - unfold random_sample, range. rewrite length_seq.
    replace (0 <=? k)%Z with true by (symmetry; apply Z.leb_le; lia).
    replace (k <=? Z.of_nat n)%Z with true by (symmetry; apply Z.leb_le; lia).
    replace (Z.of_nat n <=? setsize k)%Z with false by (symmetry; apply Z.leb_gt; lia).
    cbn [andb negb].
    assert (Hn : Z.to_nat k = 0 ∨ 0 < n).
    { destruct n; [left; lia | right; lia]. }
    pose proof (sample_set_sound fuel n (Z.to_nat k) [] g Hn) as Hsound.
    destruct (sample_set fuel (seq 0 n) n [] (Z.to_nat k) g) as [[idxs|e|] g'];
      cbn in Hsound |- *; [|exact Hsound|exact Hlarge].
    destruct Hsound as (Hlen & Hnd & Hall).
    split; [lia|]. split; [exact Hnd|].
    eapply Forall_impl; [exact Hall|]. intros i [Hi _]. exact Hi.
Qed.

Lemma random_sample_zero {A : Type} (fuel : nat) (population : list A) (g : Rng) :
  random_sample fuel population 0 g = (Ok [], g).
Proof.
  unfold random_sample. cbn [Z.leb Z.compare andb negb].
  replace (0 <=? Z.of_nat (length population))%Z with true
    by (symmetry; apply Z.leb_le; lia).
  cbn [negb Z.to_nat]. destruct (Z.of_nat (length population) <=? setsize 0)%Z; reflexivity.
Qed.

Lemma random_sample_rejects {A : Type} (fuel : nat) (population : list A) (k : Z) (g : Rng) :
  (k < 0 ∨ Z.of_nat (length population) < k)%Z →
  random_sample fuel population k g = (Raise ValueError, g).
Proof.
  intros Hk. unfold random_sample.
  destruct (0 <=? k)%Z eqn:E1; [destruct (k <=? Z.of_nat (length population))%Z eqn:E2|];
    try reflexivity.
  apply Z.leb_le in E1, E2. lia.
Qed.

(** *** When the redraws end *)

Lemma fair_advance (g : Rng) (d : nat) : fair g → fair (advance g d).
Proof. intros Hfair. exact Hfair. Qed.

Lemma fresh_position (n : nat) (selected : list nat) :
  length selected < n → ∃ r, r < n ∧ r ∉ selected.
Proof.
  intros Hlen.
  destruct (decide (Forall (λ r, r ∈ selected) (seq 0 n))) as [Hall|Hsome].
  - exfalso. rewrite Forall_forall in Hall.
    pose proof (NoDup_submseteq (seq 0 n) selected (NoDup_seq 0 n) Hall) as Hsub.
    apply submseteq_length in Hsub. rewrite length_seq in Hsub. lia.
  - apply not_Forall_Exists in Hsome; [|intros r; apply _].
    apply Exists_exists in Hsome as (r & Hr & Hnot).
    apply elem_of_seq in Hr. exists r. split; [lia | exact Hnot].
Qed.

(** If a new position is answered [d] cells ahead, the redraw loop ends
    within [d + 1] redraws, with the same result whatever the bound. *)
Lemma redraw_finds (n : nat) (selected : list nat) (d : nat) : ∀ (g : Rng) (j : nat),
  0 < n →
  N.to_nat (tape g (cursor g + d) mod N.of_nat n) ∉ selected →
  ∃ j1 e, (j1 ∉ selected) ∧ (j1 = j ∨ j1 < n) ∧
          ∀ fuel, d < fuel → redraw fuel n selected j g = (Ok j1, advance g e).
Proof.
  induction d as [|d IH]; intros g j Hn Hfresh;
    destruct (is_selected j selected) eqn:Hsel.
  - rewrite Nat.add_0_r in Hfresh.
    exists (N.to_nat (tape g (cursor g) mod N.of_nat n)), 1.
    split; [exact Hfresh|]. split; [right; now apply randbelow_lt|].
    intros [|fuel] Hfuel; [lia|]. cbn [redraw]. rewrite Hsel, run_bind, randbelow_run.
    apply is_selected_false in Hfresh.
    destruct fuel; cbn [redraw]; now rewrite Hfresh.
  - exists j, 0. apply is_selected_false in Hsel. split; [exact Hsel|]. split; [now left|].
    apply is_selected_false in Hsel.
    intros [|fuel] _; cbn [redraw]; rewrite Hsel; cbn [ret]; now rewrite advance_0.
  - destruct (IH (advance g 1) (N.to_nat (tape g (cursor g) mod N.of_nat n)) Hn)
      as (j' & e & Hnew & Hlt & Hrun).
    { cbn [advance tape cursor]. now replace (cursor g + 1 + d) with (cursor g + S d) by lia. }
    exists j', (1 + e). split; [exact Hnew|]. split.
    { right. destruct Hlt as [->|Hlt]; [now apply randbelow_lt | exact Hlt]. }
    intros [|fuel] Hfuel; [lia|]. cbn [redraw]. rewrite Hsel, run_bind, randbelow_run.
    rewrite Hrun by lia. now rewrite advance_advance.
  - exists j, 0. apply is_selected_false in Hsel. split; [exact Hsel|]. split; [now left|].
    apply is_selected_false in Hsel.
    intros [|fuel] _; cbn [redraw]; rewrite Hsel; cbn [ret]; now rewrite advance_0.
Qed.

Lemma sample_set_fair (n : nat) (k : nat) : ∀ (selected : list nat) (g : Rng),
  fair g → length selected + k ≤ n →
  ∃ fuel0 res g', ∀ fuel, fuel0 ≤ fuel →
    sample_set fuel (seq 0 n) n selected k g = (Ok res, g').
Proof.
  induction k as [|k IH]; intros selected g Hfair Hroom.
  - exists 0, [], g. intros fuel _. reflexivity.
  - assert (Hn : 0 < n) by lia.
    destruct (fresh_position n selected) as (r & Hr & Hnew); [lia|].
    destruct (Hfair n (cursor (advance g 1)) r Hr) as [d Hd].
    destruct (redraw_finds n selected d (advance g 1)
                (N.to_nat (tape g (cursor g) mod N.of_nat n)) Hn) as (j & e & Hj & Hlt & Hrun).
    { cbn [advance tape]. cbn [advance tape] in Hd. now rewrite Hd. }
    assert (Hjn : j < n) by (destruct Hlt as [->|Hlt]; [now apply randbelow_lt | exact Hlt]).
    destruct (IH (j :: selected) (advance (advance g 1) e)) as (fuel1 & rest & g' & Hrest);
      [exact Hfair | simpl; lia |].
    exists (S d `max` fuel1), (j :: rest), g'. intros fuel Hfuel.
    cbn [sample_set]. rewrite run_bind, randbelow_run, run_bind, Hrun by lia.
    rewrite lookup_seq_lt by exact Hjn. cbn [Nat.add].
    rewrite run_bind, Hrest by lia. reflexivity.
Qed.

(** On a fair generator [random.sample(range(n), k)] returns, the same
    positions for every bound on the redraws from some bound on. *)
Lemma random_sample_fair (n : nat) (k : Z) (g : Rng) :
  fair g → (0 ≤ k ≤ Z.of_nat n)%Z →
  ∃ fuel0 idxs g', ∀ fuel, fuel0 ≤ fuel →
    random_sample fuel (range n) k g = (Ok idxs, g').
Proof.
  intros Hfair Hk. destruct (Z.leb_spec (Z.of_nat n) (setsize k)) as [Hsmall|Hlarge].
  - destruct (random_sample_pool 0 n k g Hk Hsmall) as (idxs & Hrun & _).
    exists 0, idxs, (advance g (Z.to_nat k)). intros fuel _.
    rewrite <- Hrun. unfold random_sample, range. rewrite length_seq.
    destruct (negb _); [reflexivity|].
    now replace (Z.of_nat n <=? setsize k)%Z with true by (symmetry; apply Z.leb_le; lia).
  - destruct (sample_set_fair n (Z.to_nat k) [] g Hfair) as (fuel0 & idxs & g' & Hrun);
      [simpl; lia|].
    exists fuel0, idxs, g'. intros fuel Hfuel.
    unfold random_sample, range. rewrite length_seq.
    replace (0 <=? k)%Z with true by (symmetry; apply Z.leb_le; lia).
    replace (k <=? Z.of_nat n)%Z with true by (symmetry; apply Z.leb_le; lia).
    replace (Z.of_nat n <=? setsize k)%Z with false by (symmetry; apply Z.leb_gt; lia).
    cbn [andb negb]. now apply Hrun.
Qed.

Lemma counting_rng_fair : fair counting_rng.
Proof.
  intros n c r Hr. exists (r + (n - 1) * c). cbn [counting_rng tape].
  rewrite <- Nat2N.inj_mod, Nat2N.id.
  replace (c + (r + (n - 1) * c)) with (r + c * n) by nia.
  rewrite Nat.Div0.mod_add. now apply Nat.mod_small.
Qed.

(** ** Sifting: the two copies of [extract_raw_key] *)

(** C5. Position [i] is retained iff the bases at [i] are equal and
    [measured[i]] is an [int] rather than [None]; the retained positions
    appear in increasing order; and entry [j] of the raw keys is Alice's bit,
    respectively the measured bit, at position [kept_idx[j]]. *)
Theorem extract_raw_key_is_a_stable_filter :
  sifts_on_agreement bb84_sim.extract_raw_key ∧
  sifts_on_agreement bb84_eve_sim.extract_raw_key.
Proof.
  split; [|rewrite extract_raw_key_same]; apply extract_raw_key_sifts_on_agreement.
Qed.

Lemma extract_raw_key_is_a_stable_filter_witness :
  1 ∈ (bb84_sim.extract_raw_key [0; 1]%Z [None; Some 1%Z] ["R"; "D"] ["D"; "D"]).2.
Proof.
  destruct extract_raw_key_is_a_stable_filter as [Hsift _].
  pose proof (Hsift [0; 1]%Z [None; Some 1%Z] ["R"; "D"] ["D"; "D"]) as H.
  destruct (bb84_sim.extract_raw_key _ _ _ _) as [[raw_A raw_B] kept].
  destruct H as (Hkept & _ & _). apply Hkept.
  exists 1%Z, 1%Z, "D". repeat split.
Defined.

(** C6. The three outputs have the same length, which is at most the length
    of each input, and the kept indices are strictly increasing. *)
Theorem extract_raw_key_lengths :
  sifted_lengths bb84_sim.extract_raw_key ∧
  sifted_lengths bb84_eve_sim.extract_raw_key.
Proof.
  split; [|rewrite extract_raw_key_same]; apply extract_raw_key_sifted_lengths.
Qed.

(** ** The QBER estimate *)

Lemma sample_and_qber_same :
  bb84_eve_sim.sample_and_qber = bb84_sim.sample_and_check.
Proof. reflexivity. Qed.

Lemma py_round_not_out_of_fuel (x : float) : py_round x ≠ OutOfFuel.
Proof. destruct x; discriminate. Qed.

Lemma sample_size_not_out_of_fuel n sample_fraction :
  bb84_sim.sample_size n sample_fraction ≠ OutOfFuel.
Proof.
  unfold bb84_sim.sample_size. destruct sample_fraction as [s|f]; [discriminate|].
  pose proof (py_round_not_out_of_fuel (float_mul (float_of_int n) f)) as Hround.
  destruct (py_round _); [discriminate | discriminate | congruence].
Qed.

Lemma sample_size_le n sample_fraction k :
  bb84_sim.sample_size n sample_fraction = Ok k → (k ≤ n)%Z.
Proof.
  unfold bb84_sim.sample_size.
  destruct sample_fraction as [s|f]; cbn [result_bind].
  - intros [= <-]. lia.
  - destruct (py_round _) as [r|e|]; cbn [result_bind]; try discriminate.
    intros [= <-]. lia.
Qed.

Lemma sample_and_check_nonempty fuel raw_A raw_B sample_fraction g :
  raw_A ≠ [] →
  bb84_sim.sample_and_check fuel raw_A raw_B sample_fraction g =
  match bb84_sim.sample_size (Z.of_nat (length raw_A)) sample_fraction with
  | Ok k =>
      match random_sample fuel (range (length raw_A)) k g with
      | (Ok idxs, g') => (bb84_sim.tally raw_A raw_B idxs k, g')
      | (Raise e, g') => (Raise e, g')
      | (OutOfFuel, g') => (OutOfFuel, g')
      end
  | Raise e => (Raise e, g)
  | OutOfFuel => (OutOfFuel, g)
  end.
Proof.
  intros Hne. unfold bb84_sim.sample_and_check.
  destruct raw_A as [|a raw_A]; [congruence|].
  cbn [length Nat.eqb]. rewrite run_bind. unfold lift at 1.
  destruct (bb84_sim.sample_size _ _) as [k|e|]; reflexivity.
Qed.

(** C9. On an empty raw key the estimator returns [(0.0, 0, 0)] at once: it
    does not raise, and the generator is left untouched. *)
Theorem empty_raw_key_short_circuits (fuel : nat) (raw_B : list Z)
    (sample_fraction : sample_spec) (g : Rng) :
  bb84_sim.sample_and_check fuel [] raw_B sample_fraction g =
    (Ok (float_zero, 0%Z, 0%Z), g) ∧
  bb84_eve_sim.sample_and_qber fuel [] raw_B sample_fraction g =
    (Ok (float_zero, 0%Z, 0%Z), g).
Proof. split; reflexivity. Qed.

(** C7. The sample size is [min(sample_fraction, n)] for an [int] and
    [min(max(1, round(n * sample_fraction)), n)] for a [float], hence at most
    [n].  On a non-empty raw key the positions are then drawn by
    [random.sample(range(n), k)], in whichever of its two ways applies:
    whatever the generator answers, the call never raises for [k >= 0] and
    the positions it returns are [k] pairwise distinct positions below [n]
    (for [k < 0] it raises and nothing is sampled).  On a fair generator it
    does return, and the estimate is tallied over these positions.
    [sample_and_qber] is the same function. *)
Theorem qber_sample_is_clamped_and_distinct :
  bb84_eve_sim.sample_and_qber = bb84_sim.sample_and_check ∧
  bb84_eve_sim.sample_size = bb84_sim.sample_size ∧
  (∀ n s, bb84_sim.sample_size n (SpecInt s) = Ok (Z.min s n)) ∧
  (∀ n f, bb84_sim.sample_size n (SpecFloat f) =
          result_bind (py_round (float_mul (float_of_int n) f))
            (λ r, Ok (Z.min (Z.max 1 r) n))) ∧
  (∀ fuel raw_A raw_B sample_fraction g e,
     raw_A ≠ [] →
     bb84_sim.sample_size (Z.of_nat (length raw_A)) sample_fraction = Raise e →
     bb84_sim.sample_and_check fuel raw_A raw_B sample_fraction g = (Raise e, g)) ∧
  ∀ fuel raw_A raw_B sample_fraction g k,
    raw_A ≠ [] →
    bb84_sim.sample_size (Z.of_nat (length raw_A)) sample_fraction = Ok k →
    (k ≤ Z.of_nat (length raw_A))%Z ∧
    ((k < 0)%Z →
       bb84_sim.sample_and_check fuel raw_A raw_B sample_fraction g =
         (Raise ValueError, g)) ∧
    ((0 ≤ k)%Z →
       match random_sample fuel (range (length raw_A)) k g with
       | (Ok idxs, g') =>
           Z.of_nat (length idxs) = k ∧ NoDup idxs ∧
           Forall (λ i, i < length raw_A) idxs ∧
           bb84_sim.sample_and_check fuel raw_A raw_B sample_fraction g =
             (bb84_sim.tally raw_A raw_B idxs k, g')
       | (Raise _, _) => False
       | (OutOfFuel, g') =>
           (setsize k < Z.of_nat (length raw_A))%Z ∧
           bb84_sim.sample_and_check fuel raw_A raw_B sample_fraction g = (OutOfFuel, g')
       end) ∧
    ((0 ≤ k)%Z → fair g →
       ∃ fuel0 idxs g', ∀ fuel', fuel0 ≤ fuel' →
         random_sample fuel' (range (length raw_A)) k g = (Ok idxs, g') ∧
         bb84_sim.sample_and_check fuel' raw_A raw_B sample_fraction g =
           (bb84_sim.tally raw_A raw_B idxs k, g')).
Proof.
  split; [reflexivity|]. split; [reflexivity|]. split; [reflexivity|].
  split.
  { intros n f. unfold bb84_sim.sample_size.
    destruct (py_round _); reflexivity. }
  split.
  { intros fuel raw_A raw_B sample_fraction g e Hne Hsize.
    now rewrite (sample_and_check_nonempty _ _ _ _ _ Hne), Hsize. }
  intros fuel raw_A raw_B sample_fraction g k Hne Hsize.
  pose proof (sample_size_le _ _ _ Hsize) as Hle.
  split; [exact Hle|]. split; [|split].
  - intros Hneg. rewrite (sample_and_check_nonempty _ _ _ _ _ Hne), Hsize.
    now rewrite random_sample_rejects by (left; exact Hneg).
  - intros Hpos. rewrite (sample_and_check_nonempty _ _ _ _ _ Hne), Hsize.
    pose proof (random_sample_sound fuel (length raw_A) k g (conj Hpos Hle)) as Hsound.
    destruct (random_sample fuel (range (length raw_A)) k g) as [[idxs|e|] g'].
    + destruct Hsound as (Hlen & Hnd & Hlt). auto.
    + exact Hsound.
    + auto.
  - intros Hpos Hfair.
    destruct (random_sample_fair (length raw_A) k g Hfair (conj Hpos Hle))
      as (fuel0 & idxs & g' & Hrun).
    exists fuel0, idxs, g'. intros fuel' Hfuel.
    rewrite (sample_and_check_nonempty _ _ _ _ _ Hne), Hsize, (Hrun fuel' Hfuel).
    split; reflexivity.
Qed.

Lemma qber_sample_is_clamped_and_distinct_witness :
  ∃ fuel0 idxs g', ∀ fuel', fuel0 ≤ fuel' →
    random_sample fuel' (range 22) 2 counting_rng = (Ok idxs, g') ∧
    bb84_sim.sample_and_check fuel' (repeat 0%Z 22) (repeat 1%Z 22) (SpecInt 2) counting_rng =
      (bb84_sim.tally (repeat 0%Z 22) (repeat 1%Z 22) idxs 2, g').
Proof.
  destruct qber_sample_is_clamped_and_distinct as (_ & _ & _ & _ & _ & Hsample).
  destruct (Hsample 0 (repeat 0%Z 22) (repeat 1%Z 22) (SpecInt 2) counting_rng 2%Z)
    as (_ & _ & _ & Hfair); [discriminate | reflexivity |].
  apply Hfair; [lia | exact counting_rng_fair].
Defined.

(** C1 fails on the code.  With an [int] sample size [k <= 0] and a
    non-empty raw key the estimator raises: [ZeroDivisionError] from
    [mismatches / k] when [k = 0], [ValueError] from [random.sample] when
    [k < 0].  Only the [float] branch has the [max(1, ...)] guard. *)
Theorem nonpositive_int_sample_size_raises (fuel : nat) (raw_A raw_B : list Z) (k : Z)
    (g : Rng) :
  raw_A ≠ [] → (k ≤ 0)%Z →
  bb84_sim.sample_and_check fuel raw_A raw_B (SpecInt k) g =
    (Raise (if (k =? 0)%Z then ZeroDivisionError else ValueError), g) ∧
  bb84_eve_sim.sample_and_qber fuel raw_A raw_B (SpecInt k) g =
    (Raise (if (k =? 0)%Z then ZeroDivisionError else ValueError), g).
Proof.
  intros Hne Hk. rewrite sample_and_qber_same.
  assert (bb84_sim.sample_and_check fuel raw_A raw_B (SpecInt k) g =
          (Raise (if (k =? 0)%Z then ZeroDivisionError else ValueError), g)) as ->;
    [|split; reflexivity].
  rewrite (sample_and_check_nonempty _ _ _ _ _ Hne).
  assert (Hn : (0 < Z.of_nat (length raw_A))%Z) by (destruct raw_A; [congruence | simpl; lia]).
  unfold bb84_sim.sample_size. cbn [result_bind].
  rewrite Z.min_l by lia.
  destruct (Z.eqb_spec k 0) as [->|Hnz].
  - now rewrite random_sample_zero.
  - rewrite random_sample_rejects by (left; lia). reflexivity.
Qed.

Lemma nonpositive_int_sample_size_raises_witness :
  bb84_sim.sample_and_check 0 [0%Z] [0%Z] (SpecInt 0) counting_rng =
    (Raise ZeroDivisionError, counting_rng) ∧
  bb84_eve_sim.sample_and_qber 0 [0%Z] [0%Z] (SpecInt 0) counting_rng =
    (Raise ZeroDivisionError, counting_rng).
Proof.
  apply (nonpositive_int_sample_size_raises 0 [0%Z] [0%Z] 0 counting_rng);
    [discriminate | lia].
Defined.

(** The [float] branch, by contrast, never yields a size below 1 on a
    non-empty key. *)
Lemma float_sample_size_at_least_one (n : Z) (f : float) (k : Z) :
  (0 < n)%Z → bb84_sim.sample_size n (SpecFloat f) = Ok k → (1 ≤ k)%Z.
Proof.
  intros Hn. unfold bb84_sim.sample_size.
  destruct (py_round _) as [r|e|]; cbn [result_bind]; try discriminate.
  intros [= <-]. lia.
Qed.

(** ** Runs on small inputs *)

Example sample_size_of_six : bb84_sim.sample_size 6 bb84_sim.SAMPLE_FRACTION = Ok 1%Z.
Proof. reflexivity. Qed.

Example sample_size_of_fifty : bb84_sim.sample_size 50 bb84_sim.SAMPLE_FRACTION = Ok 2%Z.
Proof. reflexivity. Qed.

Example sample_size_of_five_hundred :
  bb84_sim.sample_size 500 bb84_sim.SAMPLE_FRACTION = Ok 25%Z.
Proof. reflexivity. Qed.

Example sample_size_of_nan : bb84_sim.sample_size 6 (SpecFloat S754_nan) = Raise ValueError.
Proof. reflexivity. Qed.

Example honest_run_on_ten_positions :
  let alice_bits := [0; 1; 1; 0; 1; 0; 0; 1; 1; 0]%Z in
  let alice_bases := ["R"; "D"; "R"; "R"; "D"; "D"; "R"; "D"; "R"; "D"] in
  let bob_bases := ["R"; "R"; "R"; "D"; "D"; "D"; "D"; "D"; "R"; "D"] in
  ∃ measured g1,
    bb84_sim.measure alice_bits alice_bases bob_bases bb84_sim.NOISE_FLIP_PROB counting_rng =
      (Ok measured, g1) ∧
    measured = [Some 0; None; Some 1; None; Some 1; Some 0; None; Some 1; Some 1; Some 0]%Z ∧
    bb84_sim.extract_raw_key alice_bits measured alice_bases bob_bases =
      ([0; 1; 1; 0; 1; 1; 0]%Z, [0; 1; 1; 0; 1; 1; 0]%Z, [0; 2; 4; 5; 7; 8; 9]) ∧
    (bb84_sim.sample_and_check 0 [0; 1; 1; 0; 1; 1; 0]%Z [0; 1; 1; 0; 1; 1; 0]%Z
       bb84_sim.SAMPLE_FRACTION g1).1 = Ok (float_zero, 0%Z, 1%Z).
Proof.
  eexists _, _. split; [apply measure_run|]. vm_compute. repeat split.
Qed.

Example eve_run_on_four_positions :
  (bb84_eve_sim.eve_intercept_resend [1; 1; 0; 0]%Z ["R"; "D"; "R"; "D"] ["R"; "R"; "D"; "D"]
     {| tape := λ _, 1%N; cursor := 0 |}).1 =
  Ok ([1; 1; 1; 0]%Z, ["R"; "R"; "D"; "D"]).
Proof. reflexivity. Qed.

Example unit_float_below_one :
  float_lt (unit_float (2 ^ 53 - 1)) (float_of_int 1) = true ∧
  float_lt (unit_float 0) float_zero = false.
Proof. split; reflexivity. Qed.

(** * Further properties of the two scripts *)

(** ** Generating bits and bases *)

Lemma draws_unit_cost {A : Type} (xs : list A) : draws (λ _, 1) xs = length xs.
Proof.
  induction xs as [|x xs IH]; [reflexivity|].
  change (draws (λ _ : A, 1) (x :: xs)) with (S (draws (λ _ : A, 1) xs)).
  now rewrite IH.
Qed.

Lemma outputs_unit_cost {A B : Type} (f : N → B) (xs : list A) (g : Rng) :
  outputs (λ _, 1) (λ _, f) xs g =
  (λ i, f (tape g (cursor g + i))) <$> seq 0 (length xs).
Proof.
  apply list_eq. intros i. rewrite list_lookup_fmap.
  destruct (xs !! i) as [x|] eqn:Hx.
  - rewrite (outputs_lookup _ _ _ _ _ _ Hx), draws_unit_cost.
    pose proof (lookup_lt_Some _ _ _ Hx) as Hi.
    rewrite length_take_le by lia. now rewrite lookup_seq_lt.
  - apply lookup_ge_None in Hx.
    rewrite (proj2 (lookup_ge_None _ _)) by now rewrite outputs_length.
    rewrite (proj2 (lookup_ge_None (seq 0 (length xs)) i)) by now rewrite length_seq.
    reflexivity.
Qed.

Lemma choice_BASES (g : Rng) :
  choice bb84_sim.BASES g = (Ok (random_basis (tape g (cursor g))), advance g 1).
Proof.
  unfold choice, bb84_sim.BASES, random_basis. cbn [length Nat.eqb].
  rewrite run_bind, randbelow_run. change (N.of_nat 2) with 2%N.
  assert (H : (tape g (cursor g) mod 2 < 2)%N) by (apply N.mod_upper_bound; discriminate).
  destruct (tape g (cursor g) mod 2)%N as [|[p|p|]]; try (exfalso; lia); reflexivity.
Qed.

Lemma random_basis_in_BASES (w : N) : random_basis w ∈ bb84_sim.BASES.
Proof.
  unfold random_basis, bb84_sim.BASES. destruct (w mod 2 =? 0)%N.
  - apply list_elem_of_here.
  - apply list_elem_of_further, list_elem_of_here.
Qed.

Lemma rand_bits_run (n : Z) (g : Rng) :
  bb84_sim.rand_bits n g =
  (Ok ((λ i, random_bit (tape g (cursor g + i))) <$> seq 0 (Z.to_nat n)),
   advance g (Z.to_nat n)).
Proof.
  unfold bb84_sim.rand_bits, range.
  rewrite (for_each_outputs (λ _, 1) (λ _ w, random_bit w)).
  - now rewrite outputs_unit_cost, draws_unit_cost, length_seq.
  - intros s x g0. now rewrite run_bind, randint_0_1.
Qed.

Lemma rand_bases_run (n : Z) (g : Rng) :
  bb84_sim.rand_bases n g =
  (Ok ((λ i, random_basis (tape g (cursor g + i))) <$> seq 0 (Z.to_nat n)),
   advance g (Z.to_nat n)).
Proof.
  unfold bb84_sim.rand_bases, range.
  rewrite (for_each_outputs (λ _, 1) (λ _ w, random_basis w)).
  - now rewrite outputs_unit_cost, draws_unit_cost, length_seq.
  - intros s x g0. now rewrite run_bind, choice_BASES.
Qed.

(** X1. [rand_bits(n)] returns [max(n, 0)] items, each of them 0 or 1: item
    [i] is the bit made of the [i]-th answer of the generator, and exactly
    that many answers are consumed.  The two scripts define the same
    function. *)
Theorem rand_bits_returns_bits (n : Z) (g : Rng) :
  bb84_eve_sim.rand_bits = bb84_sim.rand_bits ∧
  ∃ bits,
    bb84_sim.rand_bits n g = (Ok bits, advance g (Z.to_nat n)) ∧
    bits = (λ i, random_bit (tape g (cursor g + i))) <$> seq 0 (Z.to_nat n) ∧
    Z.of_nat (length bits) = Z.max n 0 ∧
    Forall is_bit bits.
Proof.
  split; [reflexivity|]. eexists. split; [apply rand_bits_run|].
  split; [reflexivity|]. split.
  - rewrite length_fmap, length_seq. lia.
  - apply Forall_fmap, Forall_forall. intros i _. apply random_bit_range.
Qed.

(** X2. [rand_bases(n)] returns [max(n, 0)] items, each of them one of the
    two members of [BASES], and consumes that many answers of the
    generator.  The two scripts define the same function. *)
Theorem rand_bases_returns_bases (n : Z) (g : Rng) :
  bb84_eve_sim.rand_bases = bb84_sim.rand_bases ∧
  ∃ bases,
    bb84_sim.rand_bases n g = (Ok bases, advance g (Z.to_nat n)) ∧
    bases = (λ i, random_basis (tape g (cursor g + i))) <$> seq 0 (Z.to_nat n) ∧
    Z.of_nat (length bases) = Z.max n 0 ∧
    Forall (λ B, B ∈ bb84_sim.BASES) bases.
Proof.
  split; [reflexivity|]. eexists. split; [apply rand_bases_run|].
  split; [reflexivity|]. split.
  - rewrite length_fmap, length_seq. lia.
  - apply Forall_fmap, Forall_forall. intros i _. apply random_basis_in_BASES.
Qed.

(** ** Floats that are represented exactly *)

Lemma digits2_pos_size (p : positive) : digits2_pos p = Pos.size p.
Proof. induction p as [p IH|p IH|]; simpl; [now rewrite IH | now rewrite IH | reflexivity]. Qed.

Lemma digits2_pos_le (p : positive) (n : Z) :
  (0 ≤ n)%Z → (Zpos p < 2 ^ n)%Z → (Zpos (digits2_pos p) ≤ n)%Z.
Proof.
  intros Hn Hp. rewrite digits2_pos_size.
  pose proof (Pos.size_le p) as Hsize.
  apply Pos2Z.pos_le_pos in Hsize. rewrite Pos2Z.inj_pow in Hsize.
  change (Z.pos p~0) with (2 * Z.pos p)%Z in Hsize.
  assert (H : (2 ^ Zpos (Pos.size p) < 2 ^ (n + 1))%Z).
  { rewrite Z.pow_add_r by lia. change (2 ^ 1)%Z with 2%Z. lia. }
  apply Z.pow_lt_mono_r_iff in H; lia.
Qed.

Lemma digits2_pos_iter (p s : positive) :
  digits2_pos (Pos.iter xO p s) = (digits2_pos p + s)%positive.
Proof.
  induction s as [|s IH] using Pos.peano_ind.
  - simpl. lia.
  - rewrite Pos.iter_succ. simpl. rewrite IH. lia.
Qed.

(** A 53-digit mantissa with an exponent in range is not rounded. *)
Lemma binary_round_aux_exact (s : bool) (m : positive) (e : Z) :
  Zpos (digits2_pos m) = 53%Z → (-1074 ≤ e ≤ 971)%Z →
  binary_round_aux prec emax s (Zpos m) e loc_Exact = S754_finite s m e.
Proof.
  intros Hd He.
  assert (Hshift : (fexp prec emax (Zdigits2 (Zpos m) + e) - e = 0)%Z).
  { unfold fexp, emin, prec, emax. cbn [Zdigits2]. lia. }
  unfold binary_round_aux, shr_fexp. rewrite Hshift.
  cbn [shr shr_record_of_loc shr_m loc_of_shr_record round_nearest_even].
  rewrite Hshift. cbn [shr shr_record_of_loc shr_m].
  replace (e <=? emax - prec)%Z with true; [reflexivity|].
  symmetry. apply Z.leb_le. unfold emax, prec. lia.
Qed.

(** Normalising [p * 2^e] for [p] of at most 53 digits only shifts the
    mantissa: the result is a positive finite float whose exponent is
    [e - (53 - digits p)]. *)
Lemma binary_normalize_exact (p : positive) (e : Z) :
  let d := Zpos (digits2_pos p) in
  (d ≤ 53)%Z → (-1074 ≤ d + e - 53)%Z → (d + e ≤ 1024)%Z →
  ∃ m, binary_normalize prec emax (Zpos p) e false = S754_finite false m (d + e - 53).
Proof.
  intros d Hd Hlo Hhi. unfold binary_normalize, binary_round.
  assert (Hfexp : fexp prec emax (Zpos (digits2_pos p) + e) = (d + e - 53)%Z).
  { unfold fexp, emin, prec, emax. fold d. lia. }
  rewrite Hfexp. unfold shl_align.
  destruct (d + e - 53 - e)%Z as [|q|q] eqn:Hdiff; try lia.
  - exists p. replace (d + e - 53)%Z with e by lia.
    apply binary_round_aux_exact; [fold d|]; lia.
  - exists (Pos.iter xO p q). apply binary_round_aux_exact; [|lia].
    rewrite digits2_pos_iter. fold d. lia.
Qed.

Lemma float_of_int_positive (k : Z) :
  (0 < k < 2 ^ 53)%Z → ∃ m e, float_of_int k = S754_finite false m e.
Proof.
  intros Hk. destruct k as [|p|p]; try lia.
  assert (Hd : (Zpos (digits2_pos p) ≤ 53)%Z) by (apply digits2_pos_le; lia).
  destruct (binary_normalize_exact p 0) as [m Hm]; try lia.
  unfold float_of_int. rewrite Hm. eauto.
Qed.

(** [0 / k] is [0.0]. *)
Lemma int_truediv_zero (k : Z) :
  (0 < k < 2 ^ 53)%Z → int_truediv 0 k = Ok float_zero.
Proof.
  intros Hk. unfold int_truediv.
  replace (k =? 0)%Z with false by (symmetry; apply Z.eqb_neq; lia).
  destruct (float_of_int_positive k Hk) as (m & e & ->). reflexivity.
Qed.

(** [random.random()] is always below [1.0], which is [2^52 * 2^-52]. *)
Lemma unit_float_below_1 (w : N) :
  float_lt (unit_float (w mod 2 ^ 53)) (S754_finite false 4503599627370496 (-52)) = true.
Proof.
  assert (H : (w mod 2 ^ 53 < 2 ^ 53)%N) by (apply N.mod_upper_bound; discriminate).
  revert H. generalize (w mod 2 ^ 53)%N. intros k Hk.
  unfold unit_float. destruct k as [|p]; [reflexivity|].
  assert (Hd : (Zpos (digits2_pos p) ≤ 53)%Z) by (apply digits2_pos_le; lia).
  cbn [Z.of_N]. destruct (binary_normalize_exact p (-53)) as [m ->]; try lia.
  unfold float_lt, SFltb, SFcompare.
  destruct (Z.compare_spec (Zpos (digits2_pos p) + -53 - 53) (-52)) as [H|H|H];
    try lia; reflexivity.
Qed.

(** ** The honest channel with noise *)

Lemma sifted_entry alice_bits measured alice_bases bob_bases j a b :
  let '(raw_A, raw_B, kept) :=
    bb84_sim.extract_raw_key alice_bits measured alice_bases bob_bases in
  raw_A !! j = Some a → raw_B !! j = Some b →
  ∃ i B, kept !! j = Some i ∧ alice_bits !! i = Some a ∧ measured !! i = Some (Some b) ∧
         alice_bases !! i = Some B ∧ bob_bases !! i = Some B.
Proof.
  pose proof (extract_raw_key_sifts_on_agreement alice_bits measured alice_bases bob_bases)
    as Hsift.
  pose proof (extract_raw_key_sifted_lengths alice_bits measured alice_bases bob_bases)
    as Hlen.
  destruct (bb84_sim.extract_raw_key _ _ _ _) as [[raw_A raw_B] kept].
  destruct Hsift as (Hkept & _ & Hentry). destruct Hlen as (HlA & HlB & _).
  intros Ha Hb.
  destruct (lookup_lt_is_Some_2 kept j) as [i Hi];
    [apply lookup_lt_Some in Hb; lia|].
  destruct (Hentry j i Hi) as (a' & b' & Hai & Hmi & Ha' & Hb').
  assert (a' = a) as -> by congruence. assert (b' = b) as -> by congruence.
  assert (Hin : i ∈ kept) by (apply list_elem_of_lookup; eauto).
  apply Hkept in Hin as (a2 & m2 & B & _ & _ & HBa & HBb).
  exists i, B. auto.
Qed.

(** X3. Whatever the noise probability, [measure] returns one slot per
    zipped position: [None] where the two bases differ, and where they agree
    the bit sent or that bit with its lowest bit flipped. *)
Theorem measure_slots (bits : list Z) (alice_bases bob_bases : list string)
    (noise_flip_prob : float) (g : Rng) :
  ∃ measured g',
    bb84_sim.measure bits alice_bases bob_bases noise_flip_prob g = (Ok measured, g') ∧
    ∀ i bit Ba Bb,
      bits !! i = Some bit → alice_bases !! i = Some Ba → bob_bases !! i = Some Bb →
      (Ba ≠ Bb → measured !! i = Some None) ∧
      (Ba = Bb → measured !! i = Some (Some bit) ∨
                 measured !! i = Some (Some (Z.lxor bit 1))).
Proof.
  eexists _, _. split; [apply measure_run|].
  intros i bit Ba Bb Hbit HBa HBb.
  rewrite (outputs_zip3_lookup _ _ _ _ _ _ _ _ _ _ Hbit HBa HBb).
  unfold measure_item. split.
  - intros Hne. apply String.eqb_neq in Hne. now rewrite Hne.
  - intros ->. rewrite String.eqb_refl.
    destruct (float_lt _ _); [right | left]; reflexivity.
Qed.

Lemma measure_slots_witness :
  ∃ measured g',
    bb84_sim.measure [1; 0]%Z ["R"; "D"] ["R"; "R"] float_zero counting_rng =
      (Ok measured, g') ∧
    measured !! 1 = Some None ∧
    (measured !! 0 = Some (Some 1%Z) ∨ measured !! 0 = Some (Some (Z.lxor 1 1))).
Proof.
  destruct (measure_slots [1; 0]%Z ["R"; "D"] ["R"; "R"] float_zero counting_rng)
    as (measured & g' & Hrun & Hslots).
  exists measured, g'. split; [exact Hrun|]. split.
  - apply (Hslots 1 0%Z "D" "R"); [reflexivity..|discriminate].
  - apply (Hslots 0 1%Z "R" "R"); reflexivity.
Defined.

(** X4. In the honest run the sifting keeps exactly the zipped positions at
    which the bases agree, whatever the noise: the [None] test of
    [extract_raw_key] never rejects a position that the basis test accepts.
    Bob's raw bit is Alice's, possibly with its lowest bit flipped. *)
Theorem honest_sifting_keeps_agreeing_positions (bits : list Z)
    (alice_bases bob_bases : list string) (noise_flip_prob : float) (g : Rng) :
  ∃ measured g',
    bb84_sim.measure bits alice_bases bob_bases noise_flip_prob g = (Ok measured, g') ∧
    let '(raw_A, raw_B, kept) :=
      bb84_sim.extract_raw_key bits measured alice_bases bob_bases in
    (∀ i : nat, i ∈ kept ↔
        i < length bits ∧ ∃ B, alice_bases !! i = Some B ∧ bob_bases !! i = Some B) ∧
    (∀ (j : nat) a b, raw_A !! j = Some a → raw_B !! j = Some b →
        b = a ∨ b = Z.lxor a 1).
Proof.
  eexists _, _. split; [apply measure_run|].
  set (measured := outputs _ _ _ _).
  pose proof (extract_raw_key_sifts_on_agreement bits measured alice_bases bob_bases)
    as Hsift.
  pose proof (sifted_entry bits measured alice_bases bob_bases) as Hentry.
  destruct (bb84_sim.extract_raw_key _ _ _ _) as [[raw_A raw_B] kept].
  destruct Hsift as (Hkept & _ & _). split.
  - intros i. rewrite Hkept. split.
    + intros (a & m & B & Ha & _ & HBa & HBb). apply lookup_lt_Some in Ha. eauto.
    + intros (Hi & B & HBa & HBb).
      destruct (lookup_lt_is_Some_2 bits i Hi) as [a Ha].
      pose proof (outputs_zip3_lookup on_match (measure_item noise_flip_prob)
                    _ _ _ g _ _ _ _ Ha HBa HBb) as Hm.
      fold measured in Hm. unfold measure_item in Hm. rewrite String.eqb_refl in Hm.
      eauto 10.
  - intros j a b Ha Hb.
    destruct (Hentry j a b Ha Hb) as (i & B & _ & Hai & Hmi & HBa & HBb).
    unfold measured in Hmi.
    rewrite (outputs_zip3_lookup _ _ _ _ _ _ _ _ _ _ Hai HBa HBb) in Hmi.
    unfold measure_item in Hmi. rewrite String.eqb_refl in Hmi.
    destruct (float_lt _ _); [right | left]; congruence.
Qed.

Lemma honest_sifting_keeps_agreeing_positions_witness :
  ∃ measured g',
    bb84_sim.measure [1; 0]%Z ["R"; "D"] ["R"; "R"] float_zero counting_rng =
      (Ok measured, g') ∧
    0 ∈ (bb84_sim.extract_raw_key [1; 0]%Z measured ["R"; "D"] ["R"; "R"]).2.
Proof.
  destruct (honest_sifting_keeps_agreeing_positions
              [1; 0]%Z ["R"; "D"] ["R"; "R"] float_zero counting_rng)
    as (measured & g' & Hrun & Hsift).
  exists measured, g'. split; [exact Hrun|].
  destruct (bb84_sim.extract_raw_key _ _ _ _) as [[raw_A raw_B] kept].
  destruct Hsift as [Hkept _]. apply Hkept. simpl. split; [lia|].
  exists "R". split; reflexivity.
Defined.

(** X5. With [noise_flip_prob = 1.0] every sifted bit arrives flipped:
    Bob's raw key is Alice's with [^ 1] applied to every entry. *)
Theorem full_noise_flips_every_sifted_bit (bits : list Z)
    (alice_bases bob_bases : list string) (g : Rng) :
  ∃ measured g',
    bb84_sim.measure bits alice_bases bob_bases
      (S754_finite false 4503599627370496 (-52)) g = (Ok measured, g') ∧
    let '(raw_A, raw_B, kept) :=
      bb84_sim.extract_raw_key bits measured alice_bases bob_bases in
    raw_B = (λ a, Z.lxor a 1) <$> raw_A.
Proof.
  eexists _, _. split; [apply measure_run|].
  set (measured := outputs _ _ _ _).
  pose proof (extract_raw_key_sifted_lengths bits measured alice_bases bob_bases) as Hlen.
  pose proof (sifted_entry bits measured alice_bases bob_bases) as Hentry.
  destruct (bb84_sim.extract_raw_key _ _ _ _) as [[raw_A raw_B] kept].
  destruct Hlen as (HlA & _).
  apply list_eq. intros j. rewrite list_lookup_fmap.
  destruct (raw_A !! j) as [a|] eqn:Ha.
  - destruct (lookup_lt_is_Some_2 raw_B j) as [b Hb];
      [apply lookup_lt_Some in Ha; lia|].
    destruct (Hentry j a b Ha Hb) as (i & B & _ & Hai & Hmi & HBa & HBb).
    unfold measured in Hmi.
    rewrite (outputs_zip3_lookup _ _ _ _ _ _ _ _ _ _ Hai HBa HBb) in Hmi.
    unfold measure_item in Hmi.
    rewrite String.eqb_refl, unit_float_below_1 in Hmi.
    rewrite Hb. simpl. congruence.
  - apply lookup_ge_None in Ha. apply lookup_ge_None. lia.
Qed.

(** ** More on the eavesdropper's run *)

Lemma relay_in_alices_bases (alice_bits : list Z) : ∀ (alice_bases : list string) (g : Rng),
  outputs on_mismatch relay_item (zip3 alice_bits alice_bases alice_bases) g =
    take (length alice_bases) alice_bits ∧
  draws on_mismatch (zip3 alice_bits alice_bases alice_bases) = 0.
Proof.
  induction alice_bits as [|a alice_bits IH]; intros [|B alice_bases] g;
    try (split; reflexivity).
  cbn [zip3 outputs length take].
  change (draws on_mismatch ((a, B, B) :: zip3 alice_bits alice_bases alice_bases))
    with (on_mismatch (a, B, B) + draws on_mismatch (zip3 alice_bits alice_bases alice_bases)).
  assert (Hcost : on_mismatch (a, B, B) = 0)
    by (unfold on_mismatch; now rewrite String.eqb_refl).
  assert (Hitem : relay_item (a, B, B) (tape g (cursor g)) = a)
    by (unfold relay_item; now rewrite String.eqb_refl).
  rewrite Hcost, Hitem, advance_0.
  destruct (IH alice_bases g) as [-> ->]. split; reflexivity.
Qed.

(** X6. An eavesdropper who measures in Alice's own bases is transparent:
    [eve_intercept_resend] hands on Alice's bits unchanged (as many as there
    are bases) without drawing from the generator, and the raw keys sifted
    after Bob's measurement are equal, whatever Bob's bases. *)
Theorem eve_in_alices_bases_is_transparent (alice_bits : list Z)
    (alice_bases bob_bases : list string) (g : Rng) :
  bb84_eve_sim.eve_intercept_resend alice_bits alice_bases alice_bases g =
    (Ok (take (length alice_bases) alice_bits, alice_bases), g) ∧
  ∃ bob_measured g',
    bb84_eve_sim.bob_measure_against_eve
      (take (length alice_bases) alice_bits) alice_bases bob_bases g = (Ok bob_measured, g') ∧
    let '(raw_A, raw_B, kept) :=
      bb84_eve_sim.extract_raw_key alice_bits bob_measured alice_bases bob_bases in
    raw_A = raw_B.
Proof.
  split.
  - rewrite eve_intercept_resend_run. cbv zeta.
    destruct (relay_in_alices_bases alice_bits alice_bases g) as [-> ->].
    now rewrite advance_0.
  - eexists _, _. split; [apply bob_measure_against_eve_run|].
    set (bob_measured := outputs _ _ _ _). rewrite extract_raw_key_same.
    pose proof (extract_raw_key_sifted_lengths alice_bits bob_measured alice_bases bob_bases)
      as Hlen.
    pose proof (sifted_entry alice_bits bob_measured alice_bases bob_bases) as Hentry.
    destruct (bb84_sim.extract_raw_key _ _ _ _) as [[raw_A raw_B] kept].
    destruct Hlen as (HlA & _).
    apply list_eq. intros j.
    destruct (raw_A !! j) as [a|] eqn:Ha.
    + destruct (lookup_lt_is_Some_2 raw_B j) as [b Hb];
        [apply lookup_lt_Some in Ha; lia|].
      destruct (Hentry j a b Ha Hb) as (i & B & _ & Hai & Hmi & HBa & HBb).
      assert (Htake : take (length alice_bases) alice_bits !! i = Some a).
      { rewrite lookup_take_lt; [exact Hai | now apply lookup_lt_Some in HBa]. }
      unfold bob_measured in Hmi.
      rewrite (outputs_zip3_lookup _ _ _ _ _ _ _ _ _ _ Htake HBa HBb) in Hmi.
      unfold bob_item in Hmi. rewrite String.eqb_refl in Hmi. congruence.
    + symmetry. apply lookup_ge_None in Ha. apply lookup_ge_None. lia.
Qed.

Lemma eve_chain_run (alice_bits : list Z) (alice_bases eve_bases bob_bases : list string)
    (g : Rng) :
  ∃ bits_to_bob bob_measured g1 g2,
    bb84_eve_sim.eve_intercept_resend alice_bits alice_bases eve_bases g =
      (Ok (bits_to_bob, eve_bases), g1) ∧
    bb84_eve_sim.bob_measure_against_eve bits_to_bob eve_bases bob_bases g1 =
      (Ok bob_measured, g2) ∧
    length bob_measured ≤ length eve_bases ∧
    ∀ i a B,
      alice_bits !! i = Some a → alice_bases !! i = Some B →
      eve_bases !! i = Some B → bob_bases !! i = Some B →
      bob_measured !! i = Some (Some a).
Proof.
  eexists _, _, _, _.
  split; [apply eve_intercept_resend_run|].
  split; [apply bob_measure_against_eve_run|].
  split; [rewrite outputs_length, zip3_length; lia|].
  intros i a B Ha HBa HBe HBb.
  pose proof (outputs_zip3_lookup on_mismatch relay_item _ _ _ g _ _ _ _ Ha HBa HBe) as Heve.
  rewrite (outputs_zip3_lookup _ _ _ _ _ _ _ _ _ _ Heve HBe HBb).
  unfold bob_item, relay_item. now rewrite String.eqb_refl.
Qed.

(** X7. In the eavesdropper's run, a disagreement between the two raw keys
    can only sit at a position where Eve's basis differed from Alice's (and
    hence from Bob's, the position being kept). *)
Theorem sifted_errors_come_from_eves_wrong_bases (alice_bits : list Z)
    (alice_bases eve_bases bob_bases : list string) (g : Rng) :
  ∃ bits_to_bob bases_to_bob bob_measured g1 g2,
    bb84_eve_sim.eve_intercept_resend alice_bits alice_bases eve_bases g =
      (Ok (bits_to_bob, bases_to_bob), g1) ∧
    bb84_eve_sim.bob_measure_against_eve bits_to_bob bases_to_bob bob_bases g1 =
      (Ok bob_measured, g2) ∧
    let '(raw_A, raw_B, kept) :=
      bb84_eve_sim.extract_raw_key alice_bits bob_measured alice_bases bob_bases in
    ∀ (j : nat) a b,
      raw_A !! j = Some a → raw_B !! j = Some b → a ≠ b →
      ∃ i Ba Be, kept !! j = Some i ∧ alice_bases !! i = Some Ba ∧
                 bob_bases !! i = Some Ba ∧ eve_bases !! i = Some Be ∧ Be ≠ Ba.
Proof.
  destruct (eve_chain_run alice_bits alice_bases eve_bases bob_bases g)
    as (bits_to_bob & bob_measured & g1 & g2 & Heve & Hbob & Hlen & Hsame).
  exists bits_to_bob, eve_bases, bob_measured, g1, g2.
  split; [exact Heve|]. split; [exact Hbob|].
  rewrite extract_raw_key_same.
  pose proof (sifted_entry alice_bits bob_measured alice_bases bob_bases) as Hentry.
  destruct (bb84_sim.extract_raw_key _ _ _ _) as [[raw_A raw_B] kept].
  intros j a b Ha Hb Hab.
  destruct (Hentry j a b Ha Hb) as (i & B & Hi & Hai & Hmi & HBa & HBb).
  destruct (lookup_lt_is_Some_2 eve_bases i) as [Be HBe];
    [apply lookup_lt_Some in Hmi; lia|].
  exists i, B, Be. repeat split; try assumption.
  intros ->. rewrite (Hsame i a B Hai HBa HBe HBb) in Hmi.
  congruence.
Qed.

Lemma sifted_errors_come_from_eves_wrong_bases_witness :
  ∃ (i : nat) (Ba Be : string),
    ["R"] !! i = Some Ba ∧ ["R"] !! i = Some Ba ∧ ["D"] !! i = Some Be ∧ Be ≠ Ba.
Proof.
  destruct (sifted_errors_come_from_eves_wrong_bases [0%Z] ["R"] ["D"] ["R"] counting_rng)
    as (bits_to_bob & bases_to_bob & bob_measured & g1 & g2 & Heve & Hbob & Herr).
  vm_compute in Heve. injection Heve as <- <- <-.
  vm_compute in Hbob. injection Hbob as <- _.
  destruct (Herr 0 0%Z 1%Z eq_refl eq_refl) as (i & Ba & Be & _ & H); [discriminate|].
  exists i, Ba, Be. exact H.
Defined.

(** ** Bits stay bits *)

Lemma zip3_elem_1 {A B C : Type} (xs : list A) (ys : list B) (zs : list C) x y z :
  (x, y, z) ∈ zip3 xs ys zs → x ∈ xs.
Proof.
  intros [i Hi]%list_elem_of_lookup. apply zip3_lookup in Hi as (Hx & _).
  apply list_elem_of_lookup. eauto.
Qed.

Lemma outputs_Forall {A B : Type} (P : B → Prop) (cost : A → nat) (h : A → N → B)
    (xs : list A) :
  (∀ x w, x ∈ xs → P (h x w)) → ∀ g, Forall P (outputs cost h xs g).
Proof.
  induction xs as [|x xs IH]; intros HP g; cbn [outputs]; constructor.
  - apply HP, list_elem_of_here.
  - apply IH. intros x' w Hx'. apply HP, list_elem_of_further, Hx'.
Qed.

Lemma is_bit_flip (b : Z) : is_bit b → is_bit (Z.lxor b 1).
Proof. intros [-> | ->]; [right | left]; reflexivity. Qed.

(** X8. Fed with bits (each 0 or 1), the three measuring functions produce
    bits only: [measure] yields [None] or a bit in every slot, Eve's relay
    yields bits, and Bob's measurement of them yields a bit in every slot. *)
Theorem measurements_of_bits_are_bits :
  (∀ bits alice_bases bob_bases noise_flip_prob g,
     Forall is_bit bits →
     ∃ measured g',
       bb84_sim.measure bits alice_bases bob_bases noise_flip_prob g = (Ok measured, g') ∧
       Forall (λ m, m = None ∨ ∃ b, m = Some b ∧ is_bit b) measured) ∧
  (∀ alice_bits alice_bases eve_bases g,
     Forall is_bit alice_bits →
     ∃ out_bits g',
       bb84_eve_sim.eve_intercept_resend alice_bits alice_bases eve_bases g =
         (Ok (out_bits, eve_bases), g') ∧
       Forall is_bit out_bits) ∧
  (∀ bits_from_eve eve_bases bob_bases g,
     Forall is_bit bits_from_eve →
     ∃ measured g',
       bb84_eve_sim.bob_measure_against_eve bits_from_eve eve_bases bob_bases g =
         (Ok measured, g') ∧
       Forall (λ m, ∃ b, m = Some b ∧ is_bit b) measured).
Proof.
  split; [|split].
  - intros bits alice_bases bob_bases noise_flip_prob g Hbits.
    eexists _, _. split; [apply measure_run|].
    apply outputs_Forall. intros [[bit Ba] Bb] w Hin%zip3_elem_1.
    rewrite Forall_forall in Hbits. specialize (Hbits bit Hin).
    unfold measure_item. destruct (String.eqb Ba Bb); [right | left; reflexivity].
    eexists. split; [reflexivity|].
    destruct (float_lt _ _); [now apply is_bit_flip | exact Hbits].
  - intros alice_bits alice_bases eve_bases g Hbits.
    eexists _, _. split; [apply eve_intercept_resend_run|].
    apply outputs_Forall. intros [[bit Ba] Be] w Hin%zip3_elem_1.
    rewrite Forall_forall in Hbits. specialize (Hbits bit Hin).
    unfold relay_item. destruct (String.eqb Ba Be); [exact Hbits | apply random_bit_range].
  - intros bits_from_eve eve_bases bob_bases g Hbits.
    eexists _, _. split; [apply bob_measure_against_eve_run|].
    apply outputs_Forall. intros [[bE Be] Bb] w Hin%zip3_elem_1.
    rewrite Forall_forall in Hbits. specialize (Hbits bE Hin).
    unfold bob_item. destruct (String.eqb Be Bb); eexists; (split; [reflexivity|]);
      [exact Hbits | apply random_bit_range].
Qed.

Lemma measurements_of_bits_are_bits_witness :
  ∃ out_bits g',
    bb84_eve_sim.eve_intercept_resend [1; 0]%Z ["R"; "D"] ["R"; "R"] counting_rng =
      (Ok (out_bits, ["R"; "R"]), g') ∧
    Forall is_bit out_bits.
Proof.
  destruct measurements_of_bits_are_bits as (_ & Heve & _).
  apply (Heve [1; 0]%Z ["R"; "D"] ["R"; "R"] counting_rng).
  constructor; [right; reflexivity|]. constructor; [left; reflexivity|]. constructor.
Defined.

(** ** More on the QBER estimate *)

Lemma count_mismatches_bounds (raw_A raw_B : list Z) (idxs : list nat) (m : Z) :
  bb84_sim.count_mismatches raw_A raw_B idxs = Ok m → (0 ≤ m ≤ Z.of_nat (length idxs))%Z.
Proof.
  revert m. induction idxs as [|i idxs IH]; intros m; cbn [bb84_sim.count_mismatches].
  - intros [= <-]. simpl. lia.
  - destruct (raw_A !! i) as [a|]; [|discriminate].
    destruct (raw_B !! i) as [b|]; [|discriminate].
    destruct (bb84_sim.count_mismatches raw_A raw_B idxs) as [c|e|]; try discriminate.
    cbn [result_bind]. intros [= <-]. specialize (IH c eq_refl).
    cbn [length]. destruct (a =? b)%Z; lia.
Qed.

Lemma count_mismatches_in_range (raw_A raw_B : list Z) (idxs : list nat) :
  Forall (λ i, i < length raw_A) idxs → Forall (λ i, i < length raw_B) idxs →
  ∃ m, bb84_sim.count_mismatches raw_A raw_B idxs = Ok m.
Proof.
  induction idxs as [|i idxs IH]; intros HA HB; cbn [bb84_sim.count_mismatches].
  - eauto.
  - apply Forall_cons in HA as [Hi HA]. apply Forall_cons in HB as [Hi' HB].
    destruct (lookup_lt_is_Some_2 raw_A i Hi) as [a ->].
    destruct (lookup_lt_is_Some_2 raw_B i Hi') as [b ->].
    destruct (IH HA HB) as [c ->]. cbn [result_bind]. eauto.
Qed.

Lemma count_mismatches_out_of_range (raw_A raw_B : list Z) (idxs : list nat) :
  Forall (λ i, i < length raw_A) idxs → Exists (λ i, length raw_B ≤ i) idxs →
  bb84_sim.count_mismatches raw_A raw_B idxs = Raise IndexError.
Proof.
  induction idxs as [|i idxs IH]; intros HA HB; cbn [bb84_sim.count_mismatches].
  - inversion HB.
  - apply Forall_cons in HA as [Hi HA].
    destruct (lookup_lt_is_Some_2 raw_A i Hi) as [a ->].
    destruct (raw_B !! i) as [b|] eqn:Hb; [|reflexivity].
    apply Exists_cons in HB as [HB|HB].
    + apply lookup_lt_Some in Hb. lia.
    + now rewrite (IH HA HB).
Qed.

Lemma count_mismatches_same (raw : list Z) (idxs : list nat) :
  Forall (λ i, i < length raw) idxs →
  bb84_sim.count_mismatches raw raw idxs = Ok 0%Z.
Proof.
  induction idxs as [|i idxs IH]; intros Hidx; cbn [bb84_sim.count_mismatches];
    [reflexivity|].
  apply Forall_cons in Hidx as [Hi Hidx].
  destruct (lookup_lt_is_Some_2 raw i Hi) as [a ->].
  rewrite (IH Hidx). cbn [result_bind]. now rewrite Z.eqb_refl.
Qed.

(** The run of the estimator on a non-empty key once the size is known to
    be non-negative: it goes as the call of [random.sample] goes. *)
Lemma sample_and_check_drawn fuel raw_A raw_B sample_fraction g k :
  raw_A ≠ [] →
  bb84_sim.sample_size (Z.of_nat (length raw_A)) sample_fraction = Ok k → (0 ≤ k)%Z →
  match random_sample fuel (range (length raw_A)) k g with
  | (Ok idxs, g') =>
      Z.of_nat (length idxs) = k ∧ NoDup idxs ∧ Forall (λ i, i < length raw_A) idxs ∧
      bb84_sim.sample_and_check fuel raw_A raw_B sample_fraction g =
        (bb84_sim.tally raw_A raw_B idxs k, g')
  | (Raise _, _) => False
  | (OutOfFuel, g') =>
      bb84_sim.sample_and_check fuel raw_A raw_B sample_fraction g = (OutOfFuel, g')
  end.
Proof.
  intros Hne Hsize Hk. rewrite (sample_and_check_nonempty _ _ _ _ _ Hne), Hsize.
  pose proof (sample_size_le _ _ _ Hsize) as Hle.
  pose proof (random_sample_sound fuel (length raw_A) k g (conj Hk Hle)) as Hsound.
  destruct (random_sample fuel (range (length raw_A)) k g) as [[idxs|e|] g'].
  - destruct Hsound as (Hlen & Hnd & Hlt). auto.
  - exact Hsound.
  - reflexivity.
Qed.

Lemma tally_in_range raw_A raw_B idxs k :
  Forall (λ i, i < length raw_A) idxs → Forall (λ i, i < length raw_B) idxs →
  Z.of_nat (length idxs) = k → (1 ≤ k)%Z →
  ∃ q m, bb84_sim.tally raw_A raw_B idxs k = Ok (q, m, k) ∧ (0 ≤ m ≤ k)%Z.
Proof.
  intros HA HB Hlen Hk.
  destruct (count_mismatches_in_range raw_A raw_B idxs HA HB) as [m Hm].
  pose proof (count_mismatches_bounds _ _ _ _ Hm) as Hbounds.
  unfold bb84_sim.tally, int_truediv. rewrite Hm. cbn [result_bind].
  replace (k =? 0)%Z with false by (symmetry; apply Z.eqb_neq; lia).
  cbn [result_bind]. eexists _, m. split; [reflexivity | lia].
Qed.

Lemma sample_and_check_returning fuel raw_A raw_B sample_fraction g k :
  raw_A ≠ [] → length raw_A ≤ length raw_B →
  bb84_sim.sample_size (Z.of_nat (length raw_A)) sample_fraction = Ok k → (1 ≤ k)%Z →
  returning (λ r, r.2 = k ∧ (0 ≤ r.1.2 ≤ k)%Z)
    (bb84_sim.sample_and_check fuel raw_A raw_B sample_fraction g).1.
Proof.
  intros Hne Hlen Hsize Hk.
  pose proof (sample_and_check_drawn fuel raw_A raw_B sample_fraction g k Hne Hsize) as Hrun.
  destruct (random_sample fuel (range (length raw_A)) k g) as [[idxs|e|] g'].
  - destruct Hrun as (Hidx & _ & Hlt & ->); [lia|].
    destruct (tally_in_range raw_A raw_B idxs k Hlt) as (q & m & -> & Hm); try assumption.
    { eapply Forall_impl; [exact Hlt | simpl; lia]. }
    cbn. auto.
  - destruct Hrun. lia.
  - rewrite Hrun by lia. exact I.
Qed.

Lemma sample_and_check_fair raw_A raw_B sample_fraction g k :
  raw_A ≠ [] → length raw_A ≤ length raw_B →
  bb84_sim.sample_size (Z.of_nat (length raw_A)) sample_fraction = Ok k → (1 ≤ k)%Z →
  fair g →
  ∃ fuel0 q m g', ∀ fuel, fuel0 ≤ fuel →
    bb84_sim.sample_and_check fuel raw_A raw_B sample_fraction g = (Ok (q, m, k), g').
Proof.
  intros Hne Hlen Hsize Hk Hfair.
  pose proof (sample_size_le _ _ _ Hsize) as Hle.
  destruct (random_sample_fair (length raw_A) k g Hfair) as (fuel0 & idxs & g' & Hdraw);
    [lia|].
  pose proof (sample_and_check_drawn fuel0 raw_A raw_B sample_fraction g k Hne Hsize) as Hrun.
  rewrite (Hdraw fuel0) in Hrun by lia. destruct Hrun as (Hidx & _ & Hlt & _); [lia|].
  destruct (tally_in_range raw_A raw_B idxs k Hlt) as (q & m & Htally & _); try assumption.
  { eapply Forall_impl; [exact Hlt | simpl; lia]. }
  exists fuel0, q, m, g'. intros fuel Hfuel.
  rewrite (sample_and_check_nonempty _ _ _ _ _ Hne), Hsize, (Hdraw fuel Hfuel).
  now rewrite Htally.
Qed.

Lemma sample_and_check_success fuel raw_A raw_B sample_fraction g q m k g' :
  bb84_sim.sample_and_check fuel raw_A raw_B sample_fraction g = (Ok (q, m, k), g') →
  (0 ≤ m ≤ k)%Z ∧ (k ≤ Z.of_nat (length raw_A))%Z ∧
  (raw_A ≠ [] →
   bb84_sim.sample_size (Z.of_nat (length raw_A)) sample_fraction = Ok k ∧ (1 ≤ k)%Z).
Proof.
  destruct raw_A as [|a0 raw_A'] eqn:HrA.
  - cbn. intros [= <- <- <- <-]. split; [lia|]. split; [lia|]. congruence.
  - rewrite <- HrA. assert (Hne : raw_A ≠ []) by (subst; discriminate). clear HrA.
    rewrite (sample_and_check_nonempty _ _ _ _ _ Hne).
    destruct (bb84_sim.sample_size _ _) as [k0|e|] eqn:Hsize; try discriminate.
    pose proof (sample_size_le _ _ _ Hsize) as Hle.
    destruct (Z.ltb_spec k0 0) as [Hneg|Hpos].
    { rewrite random_sample_rejects by (left; exact Hneg). discriminate. }
    pose proof (random_sample_sound fuel (length raw_A) k0 g (conj Hpos Hle)) as Hsound.
    destruct (random_sample fuel (range (length raw_A)) k0 g) as [[idxs|e|] g0];
      try discriminate.
    destruct Hsound as (Hlen & _ & _).
    unfold bb84_sim.tally, int_truediv.
    destruct (bb84_sim.count_mismatches raw_A raw_B idxs) as [m0|e|] eqn:Hm;
      try discriminate.
    cbn [result_bind]. destruct (Z.eqb_spec k0 0) as [->|Hnz]; [discriminate|].
    cbn [result_bind]. intros [= _ <- <- _].
    apply count_mismatches_bounds in Hm. repeat split; lia.
Qed.

(** X9. Whenever the estimator returns [(qber, mismatches, k)], whichever
    way [random.sample] selected, the counts are consistent:
    [0 <= mismatches <= k <= len(raw_A)], and [k >= 1] unless the raw key is
    empty.  This holds for both scripts. *)
Theorem qber_counts_are_consistent (fuel : nat) (raw_A raw_B : list Z)
    (sample_fraction : sample_spec) (g g' : Rng) (q : float) (m k : Z) :
  bb84_sim.sample_and_check fuel raw_A raw_B sample_fraction g = (Ok (q, m, k), g') ∨
  bb84_eve_sim.sample_and_qber fuel raw_A raw_B sample_fraction g = (Ok (q, m, k), g') →
  (0 ≤ m ≤ k)%Z ∧ (k ≤ Z.of_nat (length raw_A))%Z ∧ (raw_A ≠ [] → (1 ≤ k)%Z).
Proof.
  rewrite sample_and_qber_same. intros Hrun.
  assert (H : bb84_sim.sample_and_check fuel raw_A raw_B sample_fraction g =
              (Ok (q, m, k), g')) by (destruct Hrun; assumption).
  apply sample_and_check_success in H as (Hm & Hk & Hne).
  repeat split; try lia. intros Hnil. now apply Hne.
Qed.

Lemma qber_counts_are_consistent_witness :
  (0 ≤ 2 ≤ 2)%Z ∧ (2 ≤ Z.of_nat (length (repeat 0%Z 22)))%Z ∧
  (repeat 0%Z 22 ≠ [] → (1 ≤ 2)%Z).
Proof.
  apply (qber_counts_are_consistent 0 (repeat 0%Z 22) (repeat 1%Z 22) (SpecInt 2) counting_rng
           (advance counting_rng 2) (S754_finite false 4503599627370496 (-52)) 2 2).
  left. vm_compute. reflexivity.
Defined.

(** X10. On a non-empty raw key, with Bob's key at least as long as
    Alice's: the estimator returns only if the sample size resolves to a
    [k >= 1]; and if it does resolve to such a [k], the estimator never
    raises, what it returns has that [k] and [0 <= mismatches <= k], and on
    a fair generator it does return. *)
Theorem estimator_returns_iff_size_positive (raw_A raw_B : list Z)
    (sample_fraction : sample_spec) (g : Rng) :
  raw_A ≠ [] → length raw_A ≤ length raw_B →
  ((∃ fuel q m k g',
      bb84_sim.sample_and_check fuel raw_A raw_B sample_fraction g = (Ok (q, m, k), g')) →
   ∃ k, bb84_sim.sample_size (Z.of_nat (length raw_A)) sample_fraction = Ok k ∧ (1 ≤ k)%Z) ∧
  (∀ k,
     bb84_sim.sample_size (Z.of_nat (length raw_A)) sample_fraction = Ok k → (1 ≤ k)%Z →
     (∀ fuel,
        returning (λ r, r.2 = k ∧ (0 ≤ r.1.2 ≤ k)%Z)
          (bb84_sim.sample_and_check fuel raw_A raw_B sample_fraction g).1) ∧
     (fair g →
      ∃ fuel0 q m g', ∀ fuel, fuel0 ≤ fuel →
        bb84_sim.sample_and_check fuel raw_A raw_B sample_fraction g = (Ok (q, m, k), g'))).
Proof.
  intros Hne Hlen. split.
  - intros (fuel & q & m & k & g' & Hrun).
    apply sample_and_check_success in Hrun as (_ & _ & Hsize). exists k. now apply Hsize.
  - intros k Hsize Hk. split.
    + intros fuel. now apply sample_and_check_returning.
    + intros Hfair. now apply sample_and_check_fair.
Qed.

Lemma estimator_returns_iff_size_positive_witness :
  ∃ fuel0 q m g', ∀ fuel, fuel0 ≤ fuel →
    bb84_sim.sample_and_check fuel (repeat 0%Z 22) (repeat 1%Z 22) (SpecInt 2) counting_rng =
      (Ok (q, m, 2%Z), g').
Proof.
  assert (Hne : repeat 0%Z 22 ≠ []) by discriminate.
  assert (Hlen : length (repeat 0%Z 22) ≤ length (repeat 1%Z 22)) by (simpl; lia).
  destruct (estimator_returns_iff_size_positive
              (repeat 0%Z 22) (repeat 1%Z 22) (SpecInt 2) counting_rng Hne Hlen)
    as [_ Hreturns].
  destruct (Hreturns 2%Z eq_refl) as [_ Hfair]; [lia|].
  exact (Hfair counting_rng_fair).
Defined.

(** X11. The estimator reads Bob's key at the drawn positions only, and
    without a length check: on a non-empty raw key with a resolved size
    [k >= 1], once [random.sample] has returned its positions, the estimator
    raises [IndexError] if one of them lies beyond Bob's key (always so when
    that key is empty), and returns normally if none does. *)
Theorem estimator_index_error (fuel : nat) (raw_A raw_B : list Z)
    (sample_fraction : sample_spec) (g g' : Rng) (k : Z) (idxs : list nat) :
  raw_A ≠ [] →
  bb84_sim.sample_size (Z.of_nat (length raw_A)) sample_fraction = Ok k → (1 ≤ k)%Z →
  random_sample fuel (range (length raw_A)) k g = (Ok idxs, g') →
  (Exists (λ i, length raw_B ≤ i) idxs →
     bb84_sim.sample_and_check fuel raw_A raw_B sample_fraction g = (Raise IndexError, g')) ∧
  (raw_B = [] →
     bb84_sim.sample_and_check fuel raw_A raw_B sample_fraction g = (Raise IndexError, g')) ∧
  (Forall (λ i, i < length raw_B) idxs →
     ∃ q m, bb84_sim.sample_and_check fuel raw_A raw_B sample_fraction g =
              (Ok (q, m, k), g')).
Proof.
  intros Hne Hsize Hk Hdraw.
  pose proof (sample_and_check_drawn fuel raw_A raw_B sample_fraction g k Hne Hsize) as Hrun.
  rewrite Hdraw in Hrun. destruct Hrun as (Hlen & _ & Hlt & ->); [lia|].
  assert (Hbeyond : Exists (λ i, length raw_B ≤ i) idxs →
                    (bb84_sim.tally raw_A raw_B idxs k, g') = (Raise IndexError, g')).
  { intros Hex. unfold bb84_sim.tally.
    now rewrite (count_mismatches_out_of_range _ _ _ Hlt Hex). }
  split; [exact Hbeyond|]. split.
  - intros ->. apply Hbeyond. destruct idxs as [|i idxs]; [simpl in Hlen; lia|].
    apply Exists_cons_hd. simpl. lia.
  - intros Hin.
    destruct (tally_in_range raw_A raw_B idxs k Hlt Hin Hlen Hk) as (q & m & -> & _).
    eauto.
Qed.

Lemma estimator_index_error_witness :
  bb84_sim.sample_and_check 9 (repeat 0%Z 22) (repeat 0%Z 21) (SpecInt 5)
    {| tape := λ i, nth i [1; 2; 2; 11; 5; 21]%N 0%N; cursor := 0 |} =
  (Raise IndexError, {| tape := λ i, nth i [1; 2; 2; 11; 5; 21]%N 0%N; cursor := 6 |}).
Proof.
  assert (Hne : repeat 0%Z 22 ≠ []) by discriminate.
  assert (Hk : (1 ≤ 5)%Z) by lia.
  assert (Hdraw : random_sample 9 (range (length (repeat 0%Z 22))) 5
                    {| tape := λ i, nth i [1; 2; 2; 11; 5; 21]%N 0%N; cursor := 0 |} =
                  (Ok [1; 2; 11; 5; 21],
                   {| tape := λ i, nth i [1; 2; 2; 11; 5; 21]%N 0%N; cursor := 6 |}))
    by (vm_compute; reflexivity).
  destruct (estimator_index_error 9 (repeat 0%Z 22) (repeat 0%Z 21) (SpecInt 5) _ _
              5 [1; 2; 11; 5; 21] Hne eq_refl Hk Hdraw) as (Hbeyond & _ & _).
  apply Hbeyond, Exists_exists. exists 21. split; [|simpl; lia].
  apply list_elem_of_lookup. exists 4. reflexivity.
Defined.

Lemma tally_same (raw : list Z) (idxs : list nat) (k : Z) :
  Forall (λ i, i < length raw) idxs → (0 < k < 2 ^ 53)%Z →
  bb84_sim.tally raw raw idxs k = Ok (float_zero, 0%Z, k).
Proof.
  intros Hlt Hk. unfold bb84_sim.tally.
  rewrite (count_mismatches_same _ _ Hlt). cbn [result_bind].
  now rewrite int_truediv_zero by lia.
Qed.

Lemma same_keys_returning fuel raw sample_fraction g k :
  raw ≠ [] → (Z.of_nat (length raw) < 2 ^ 53)%Z →
  bb84_sim.sample_size (Z.of_nat (length raw)) sample_fraction = Ok k → (1 ≤ k)%Z →
  returning (λ r, r = (float_zero, 0%Z, k))
    (bb84_sim.sample_and_check fuel raw raw sample_fraction g).1.
Proof.
  intros Hne Hsmall Hsize Hk. pose proof (sample_size_le _ _ _ Hsize) as Hle.
  pose proof (sample_and_check_drawn fuel raw raw sample_fraction g k Hne Hsize) as Hrun.
  destruct (random_sample fuel (range (length raw)) k g) as [[idxs|e|] g'].
  - destruct Hrun as (_ & _ & Hlt & ->); [lia|]. now rewrite (tally_same _ _ _ Hlt) by lia.
  - destruct Hrun. lia.
  - rewrite Hrun by lia. exact I.
Qed.

Lemma same_keys_fair raw sample_fraction g k :
  raw ≠ [] → (Z.of_nat (length raw) < 2 ^ 53)%Z →
  bb84_sim.sample_size (Z.of_nat (length raw)) sample_fraction = Ok k → (1 ≤ k)%Z →
  fair g →
  ∃ fuel0 g', ∀ fuel, fuel0 ≤ fuel →
    bb84_sim.sample_and_check fuel raw raw sample_fraction g =
      (Ok (float_zero, 0%Z, k), g').
Proof.
  intros Hne Hsmall Hsize Hk Hfair. pose proof (sample_size_le _ _ _ Hsize) as Hle.
  destruct (random_sample_fair (length raw) k g Hfair) as (fuel0 & idxs & g' & Hdraw);
    [lia|].
  exists fuel0, g'. intros fuel Hfuel.
  pose proof (sample_and_check_drawn fuel raw raw sample_fraction g k Hne Hsize) as Hrun.
  rewrite (Hdraw fuel Hfuel) in Hrun. destruct Hrun as (_ & _ & Hlt & ->); [lia|].
  now rewrite (tally_same _ _ _ Hlt) by lia.
Qed.

(** X12. On two identical non-empty raw keys (shorter than 2^53) and a
    resolved sample size [k >= 1], neither estimator raises, what they
    return is exactly [(0.0, 0, k)], and on a fair generator they do
    return. *)
Theorem identical_keys_have_zero_qber (raw : list Z) (sample_fraction : sample_spec)
    (g : Rng) (k : Z) :
  raw ≠ [] → (Z.of_nat (length raw) < 2 ^ 53)%Z →
  bb84_sim.sample_size (Z.of_nat (length raw)) sample_fraction = Ok k → (1 ≤ k)%Z →
  (∀ fuel,
     returning (λ r, r = (float_zero, 0%Z, k))
       (bb84_sim.sample_and_check fuel raw raw sample_fraction g).1 ∧
     returning (λ r, r = (float_zero, 0%Z, k))
       (bb84_eve_sim.sample_and_qber fuel raw raw sample_fraction g).1) ∧
  (fair g →
   ∃ fuel0 g', ∀ fuel, fuel0 ≤ fuel →
     bb84_sim.sample_and_check fuel raw raw sample_fraction g =
       (Ok (float_zero, 0%Z, k), g') ∧
     bb84_eve_sim.sample_and_qber fuel raw raw sample_fraction g =
       (Ok (float_zero, 0%Z, k), g')).
Proof.
  intros Hne Hsmall Hsize Hk. rewrite sample_and_qber_same. split.
  - intros fuel. split; now apply same_keys_returning.
  - intros Hfair.
    destruct (same_keys_fair raw sample_fraction g k Hne Hsmall Hsize Hk Hfair)
      as (fuel0 & g' & Hrun).
    exists fuel0, g'. intros fuel Hfuel. split; now apply Hrun.
Qed.

Lemma identical_keys_have_zero_qber_witness :
  ∃ fuel0 g', ∀ fuel, fuel0 ≤ fuel →
    bb84_sim.sample_and_check fuel (repeat 1%Z 22) (repeat 1%Z 22) (SpecInt 2) counting_rng =
      (Ok (float_zero, 0%Z, 2%Z), g') ∧
    bb84_eve_sim.sample_and_qber fuel (repeat 1%Z 22) (repeat 1%Z 22) (SpecInt 2)
      counting_rng = (Ok (float_zero, 0%Z, 2%Z), g').
Proof.
  assert (Hne : repeat 1%Z 22 ≠ []) by discriminate.
  assert (Hsmall : (Z.of_nat (length (repeat 1%Z 22)) < 2 ^ 53)%Z)
    by (vm_compute; reflexivity).
  destruct (identical_keys_have_zero_qber (repeat 1%Z 22) (SpecInt 2) counting_rng 2%Z
              Hne Hsmall eq_refl) as [_ Hfair]; [lia|].
  exact (Hfair counting_rng_fair).
Defined.

(** X15. Position by position, [bob_measure_against_eve] keeps the bit Eve
    sent where Bob's basis equals hers, and otherwise stores the bit, 0 or
    1, that a call of [randint(0, 1)] of its own delivers on the generator
    as the earlier mismatching positions left it. *)
Theorem bob_measures_what_eve_sent (bits_from_eve : list Z) (eve_bases bob_bases : list string)
    (g : Rng) :
  ∃ measured g',
    bb84_eve_sim.bob_measure_against_eve bits_from_eve eve_bases bob_bases g =
      (Ok measured, g') ∧
    ∀ i bE Be Bb,
      bits_from_eve !! i = Some bE → eve_bases !! i = Some Be → bob_bases !! i = Some Bb →
      (Be = Bb → measured !! i = Some (Some bE)) ∧
      (Be ≠ Bb →
         ∃ r, measured !! i = Some (Some r) ∧ is_bit r ∧
              let earlier := take i (zip3 bits_from_eve eve_bases bob_bases) in
              randint 0 1 (advance g (draws on_mismatch earlier)) =
                (Ok r, advance g (S (draws on_mismatch earlier)))).
Proof.
  eexists _, _. split; [apply bob_measure_against_eve_run|].
  intros i bE Be Bb HbE HBe HBb.
  rewrite (outputs_zip3_lookup _ _ _ _ _ _ _ _ _ _ HbE HBe HBb).
  unfold bob_item. split.
  - intros ->. now rewrite String.eqb_refl.
  - intros Hne. apply String.eqb_neq in Hne. rewrite Hne.
    eexists. split; [reflexivity|]. split; [apply random_bit_range|].
    cbv zeta. rewrite randint_0_1, advance_advance.
    cbn [advance tape cursor]. now rewrite Nat.add_1_r.
Qed.

Lemma bob_measures_what_eve_sent_witness :
  ∃ measured g',
    bb84_eve_sim.bob_measure_against_eve [1; 0]%Z ["R"; "D"] ["R"; "R"] counting_rng =
      (Ok measured, g') ∧
    measured !! 0 = Some (Some 1%Z) ∧
    ∃ r, measured !! 1 = Some (Some r) ∧ is_bit r.
Proof.
  destruct (bob_measures_what_eve_sent [1; 0]%Z ["R"; "D"] ["R"; "R"] counting_rng)
    as (measured & g' & Hrun & Hpos).
  exists measured, g'. split; [exact Hrun|]. split.
  - apply (Hpos 0 1%Z "R" "R"); reflexivity.
  - destruct (Hpos 1 0%Z "D" "R" eq_refl eq_refl eq_refl) as [_ Hrandom].
    destruct Hrandom as (r & Hr & Hbit & _); [discriminate|].
    exists r. split; assumption.
Defined.

(** ** The two [main] runs *)

Lemma sample_fraction_resolves (n : nat) :
  0 < n ≤ 1000 →
  ∃ k, bb84_sim.sample_size (Z.of_nat n) bb84_sim.SAMPLE_FRACTION = Ok k ∧ (1 ≤ k)%Z.
Proof.
  intros Hn.
  assert (Hall : forallb
            (λ i, match bb84_sim.sample_size (Z.of_nat i) bb84_sim.SAMPLE_FRACTION with
                  | Ok _ => true
                  | _ => false
                  end) (seq 1 1000) = true) by (vm_compute; reflexivity).
  rewrite forallb_forall in Hall. specialize (Hall n).
  destruct (bb84_sim.sample_size _ _) as [k|e|] eqn:Hsize.
  - exists k. split; [reflexivity|].
    unfold bb84_sim.SAMPLE_FRACTION in Hsize.
    eapply float_sample_size_at_least_one; [|exact Hsize]. lia.
  - assert (false = true); [|discriminate]. apply Hall, in_seq. lia.
  - assert (false = true); [|discriminate]. apply Hall, in_seq. lia.
Qed.

Lemma noiseless_raw_keys_equal (bits : list Z) (alice_bases bob_bases : list string) (g : Rng) :
  let measured :=
    outputs on_match (measure_item float_zero) (zip3 bits alice_bases bob_bases) g in
  let '(raw_A, raw_B, kept) :=
    bb84_sim.extract_raw_key bits measured alice_bases bob_bases in
  raw_A = raw_B.
Proof.
  intros measured.
  pose proof (extract_raw_key_sifted_lengths bits measured alice_bases bob_bases) as Hlen.
  pose proof (sifted_entry bits measured alice_bases bob_bases) as Hentry.
  destruct (bb84_sim.extract_raw_key _ _ _ _) as [[raw_A raw_B] kept].
  destruct Hlen as (HlA & _).
  apply list_eq. intros j.
  destruct (raw_A !! j) as [a|] eqn:Ha.
  - destruct (lookup_lt_is_Some_2 raw_B j) as [b Hb];
      [apply lookup_lt_Some in Ha; lia|].
    destruct (Hentry j a b Ha Hb) as (i & B & _ & Hai & Hmi & HBa & HBb).
    unfold measured in Hmi.
    rewrite (outputs_zip3_lookup _ _ _ _ _ _ _ _ _ _ Hai HBa HBb) in Hmi.
    rewrite measure_item_noiseless, String.eqb_refl in Hmi. congruence.
  - symmetry. apply lookup_ge_None in Ha. apply lookup_ge_None. lia.
Qed.

(** The honest [main] up to the sifting: everything before the estimate is
    the same for every bound on the redraws. *)
Lemma honest_main_run (g : Rng) :
  ∃ (alice_bits : list Z) (alice_bases bob_bases : list string) (g0 : Rng),
    length alice_bits ≤ 1000 ∧ (fair g → fair g0) ∧
    ∀ fuel,
      bb84_sim.main fuel g =
      (measured ← bb84_sim.measure alice_bits alice_bases bob_bases bb84_sim.NOISE_FLIP_PROB;
       let '(raw_A, raw_B, kept_idx) :=
         bb84_sim.extract_raw_key alice_bits measured alice_bases bob_bases in
       '(qber, mismatches, k) ←
         bb84_sim.sample_and_check fuel raw_A raw_B bb84_sim.SAMPLE_FRACTION;
       let n_matches := Z.of_nat (length kept_idx) in
       ret {| bb84_sim.Summary.n_bits := bb84_sim.N_BITS;
              bb84_sim.Summary.n_matches := n_matches;
              bb84_sim.Summary.n_discarded := bb84_sim.N_BITS - n_matches;
              bb84_sim.Summary.raw_key_length := Z.of_nat (length raw_A);
              bb84_sim.Summary.qber := qber;
              bb84_sim.Summary.mismatches := mismatches;
              bb84_sim.Summary.sample_size := k |}) g0.
Proof.
  eexists _, _, _, _. split; [|split]; cycle 2.
  - intros fuel. unfold bb84_sim.main.
    rewrite run_bind, rand_bits_run, run_bind, rand_bases_run, run_bind, rand_bases_run.
    reflexivity.
  - rewrite length_fmap, length_seq. unfold bb84_sim.N_BITS. lia.
  - intros Hfair. exact Hfair.
Qed.

(** Steps 3 to 6 of the honest [main] on any bits and bases, at most a
    thousand of them. *)
Lemma honest_steps (alice_bits : list Z) (alice_bases bob_bases : list string) (g : Rng) :
  length alice_bits ≤ 1000 →
  ∃ measured g1,
    bb84_sim.measure alice_bits alice_bases bob_bases bb84_sim.NOISE_FLIP_PROB g =
      (Ok measured, g1) ∧
    let '(raw_A, raw_B, kept_idx) :=
      bb84_sim.extract_raw_key alice_bits measured alice_bases bob_bases in
    length raw_A = length kept_idx ∧ length kept_idx ≤ length alice_bits ∧
    (∀ fuel,
       returning (λ r, r.1.1 = float_zero ∧ r.1.2 = 0%Z ∧
                       ((length kept_idx = 0 ∧ r.2 = 0%Z) ∨
                        (1 ≤ r.2 ≤ Z.of_nat (length kept_idx))%Z))
         (bb84_sim.sample_and_check fuel raw_A raw_B bb84_sim.SAMPLE_FRACTION g1).1) ∧
    (fair g →
     ∃ fuel0 r g2, ∀ fuel, fuel0 ≤ fuel →
       bb84_sim.sample_and_check fuel raw_A raw_B bb84_sim.SAMPLE_FRACTION g1 = (Ok r, g2)).
Proof.
  intros Hbound. eexists _, _. split; [apply measure_run|].
  pose proof (noiseless_raw_keys_equal alice_bits alice_bases bob_bases g) as Heq.
  cbv zeta in Heq. unfold bb84_sim.NOISE_FLIP_PROB.
  set (measured := outputs _ _ _ _) in *.
  set (g1 := advance g _).
  pose proof (extract_raw_key_sifted_lengths alice_bits measured alice_bases bob_bases)
    as Hlen.
  destruct (bb84_sim.extract_raw_key _ _ _ _) as [[raw_A raw_B] kept_idx].
  subst raw_B. destruct Hlen as (_ & HlB & Hle & _).
  split; [exact HlB|]. split; [exact Hle|].
  destruct raw_A as [|a0 raw_A'] eqn:HrA.
  - split.
    + intros fuel. cbn. simpl in HlB. split; [reflexivity|]. split; [reflexivity|].
      left. split; [lia | reflexivity].
    + intros _. exists 0. eexists _, _. intros fuel _. reflexivity.
  - rewrite <- HrA in *. assert (Hne : raw_A ≠ []) by (subst; discriminate). clear HrA.
    assert (Hpos : 0 < length raw_A) by (destruct raw_A; [congruence | simpl; lia]).
    destruct (sample_fraction_resolves (length raw_A)) as (k & Hsize & Hk); [lia|].
    pose proof (sample_size_le _ _ _ Hsize) as Hkn.
    assert (Hsmall : (Z.of_nat (length raw_A) < 2 ^ 53)%Z).
    { apply Z.le_lt_trans with 1000%Z; [lia | reflexivity]. }
    split.
    + intros fuel.
      pose proof (same_keys_returning fuel raw_A bb84_sim.SAMPLE_FRACTION g1 k
                    Hne Hsmall Hsize Hk) as Hret.
      destruct (bb84_sim.sample_and_check fuel raw_A raw_A bb84_sim.SAMPLE_FRACTION g1)
        as [[r|e|] g2]; cbn in Hret |- *; try exact Hret.
      subst r. cbn. split; [reflexivity|]. split; [reflexivity|]. right. lia.
    + intros Hfair.
      destruct (same_keys_fair raw_A bb84_sim.SAMPLE_FRACTION g1 k Hne Hsmall Hsize Hk Hfair)
        as (fuel0 & g2 & Hrun).
      exists fuel0. eexists _, g2. exact Hrun.
Qed.

(** X13. For every state the seed may put the generator in, the honest
    [main] never raises, and the summary it builds reports no error:
    matches and discards add up to [N_BITS], the raw key has one bit per
    match, no sampled position mismatches and the rate is [0.0]; the sample
    has at least one position unless no basis matched.  On a fair generator
    [main] does build its summary. *)
Theorem honest_main_reports_no_error (g : Rng) :
  (∀ fuel, returning honest_report (bb84_sim.main fuel g).1) ∧
  (fair g →
   ∃ fuel0 s g', ∀ fuel, fuel0 ≤ fuel → bb84_sim.main fuel g = (Ok s, g')).
Proof.
  destruct (honest_main_run g)
    as (alice_bits & alice_bases & bob_bases & g0 & Hlen & Hfair0 & Hmain).
  destruct (honest_steps alice_bits alice_bases bob_bases g0 Hlen)
    as (measured & g1 & Hmeasure & Hrest).
  destruct (bb84_sim.extract_raw_key alice_bits measured alice_bases bob_bases)
    as [[raw_A raw_B] kept_idx] eqn:Hextract.
  destruct Hrest as (HlA & Hle & Hret & Hfair).
  split.
  - intros fuel. rewrite Hmain, run_bind, Hmeasure. cbv beta. rewrite Hextract, run_bind.
    specialize (Hret fuel).
    destruct (bb84_sim.sample_and_check fuel raw_A raw_B bb84_sim.SAMPLE_FRACTION g1)
      as [[[[q m] k]|e|] g2]; cbn in Hret |- *; try exact Hret.
    destruct Hret as (-> & -> & Hk).
    unfold honest_report, bb84_sim.N_BITS. cbn. repeat split; lia.
  - intros Hg. destruct (Hfair (Hfair0 Hg)) as (fuel0 & [[q m] k] & g2 & Hrun).
    exists fuel0. eexists _, g2. intros fuel Hfuel.
    rewrite Hmain, run_bind, Hmeasure. cbv beta.
    rewrite Hextract, run_bind, (Hrun fuel Hfuel). reflexivity.
Qed.

Lemma honest_main_reports_no_error_witness :
  ∃ fuel0 s g', ∀ fuel, fuel0 ≤ fuel → bb84_sim.main fuel counting_rng = (Ok s, g').
Proof.
  exact (proj2 (honest_main_reports_no_error counting_rng) counting_rng_fair).
Defined.

(** The eavesdropper's [main] up to the sifting: everything before the
    estimate is the same for every bound on the redraws. *)
Lemma eve_main_run (g : Rng) :
  ∃ (alice_bits : list Z) (bob_measured : list (option Z))
    (alice_bases bob_bases : list string) (g0 : Rng),
    length alice_bits ≤ 1000 ∧ (fair g → fair g0) ∧
    ∀ fuel,
      bb84_eve_sim.main fuel g =
      (let '(raw_A, raw_B, kept) :=
         bb84_eve_sim.extract_raw_key alice_bits bob_measured alice_bases bob_bases in
       '(qber, mismatches, k) ←
         bb84_eve_sim.sample_and_qber fuel raw_A raw_B bb84_eve_sim.SAMPLE_FRACTION;
       ret {| bb84_eve_sim.Summary.n_bits := bb84_eve_sim.N_BITS;
              bb84_eve_sim.Summary.sifted_len := Z.of_nat (length raw_A);
              bb84_eve_sim.Summary.discarded :=
                bb84_eve_sim.N_BITS - Z.of_nat (length kept);
              bb84_eve_sim.Summary.sample_size := k;
              bb84_eve_sim.Summary.mismatches := mismatches;
              bb84_eve_sim.Summary.qber := qber;
              bb84_eve_sim.Summary.expected_qber_no_eve := float_zero;
              bb84_eve_sim.Summary.expected_qber_with_eve :=
                S754_finite false 4503599627370496 (-54) |}) g0.
Proof.
  eexists _, _, _, _, _. split; [|split]; cycle 2.
  - intros fuel. unfold bb84_eve_sim.main.
    change bb84_eve_sim.rand_bits with bb84_sim.rand_bits.
    change bb84_eve_sim.rand_bases with bb84_sim.rand_bases.
    rewrite run_bind, rand_bits_run, run_bind, rand_bases_run, run_bind, rand_bases_run.
    rewrite run_bind, eve_intercept_resend_run. cbv zeta.
    rewrite run_bind, rand_bases_run, run_bind, bob_measure_against_eve_run. cbv zeta.
    reflexivity.
  - rewrite length_fmap, length_seq. unfold bb84_eve_sim.N_BITS. lia.
  - intros Hfair. exact Hfair.
Qed.

(** X14. For every state of the generator the eavesdropper's [main] never
    raises, and in the summary it builds sifted length and discards add up
    to [N_BITS], the counts satisfy [0 <= mismatches <= sample_size <=
    sifted_len], the sample has at least one position unless nothing was
    sifted, and the two reference rates are [0.0] and [0.25].  On a fair
    generator [main] does build its summary. *)
Theorem eve_main_runs_through (g : Rng) :
  (∀ fuel, returning eve_report (bb84_eve_sim.main fuel g).1) ∧
  (fair g →
   ∃ fuel0 s g', ∀ fuel, fuel0 ≤ fuel → bb84_eve_sim.main fuel g = (Ok s, g')).
Proof.
  destruct (eve_main_run g)
    as (alice_bits & bob_measured & alice_bases & bob_bases & g0 & Hlen & Hfair0 & Hmain).
  rewrite extract_raw_key_same, sample_and_qber_same in Hmain.
  change bb84_eve_sim.SAMPLE_FRACTION with bb84_sim.SAMPLE_FRACTION in Hmain.
  pose proof (extract_raw_key_sifted_lengths alice_bits bob_measured alice_bases bob_bases)
    as Hsift.
  destruct (bb84_sim.extract_raw_key alice_bits bob_measured alice_bases bob_bases)
    as [[raw_A raw_B] kept] eqn:Hextract.
  destruct Hsift as (HlA & HlB & Hle & _).
  destruct raw_A as [|a0 raw_A'] eqn:HrA.
  - split.
    + intros fuel. rewrite Hmain, run_bind. simpl in HlA.
      cbn [bb84_sim.sample_and_check length Nat.eqb ret fst returning].
      unfold eve_report, bb84_eve_sim.N_BITS.
      cbn [bb84_eve_sim.Summary.n_bits bb84_eve_sim.Summary.sifted_len
           bb84_eve_sim.Summary.discarded bb84_eve_sim.Summary.sample_size
           bb84_eve_sim.Summary.mismatches bb84_eve_sim.Summary.qber
           bb84_eve_sim.Summary.expected_qber_no_eve
           bb84_eve_sim.Summary.expected_qber_with_eve length].
      repeat split; lia.
    + intros _. exists 0. eexists _, _. intros fuel _. rewrite Hmain. reflexivity.
  - rewrite <- HrA in *. assert (Hne : raw_A ≠ []) by (subst; discriminate). clear HrA.
    assert (Hpos : 0 < length raw_A) by (destruct raw_A; [congruence | simpl; lia]).
    destruct (sample_fraction_resolves (length raw_A)) as (k & Hsize & Hk); [lia|].
    pose proof (sample_size_le _ _ _ Hsize) as Hkn.
    split.
    + intros fuel. rewrite Hmain, run_bind.
      pose proof (sample_and_check_returning fuel raw_A raw_B bb84_sim.SAMPLE_FRACTION g0 k
                    Hne ltac:(lia) Hsize Hk) as Hret.
      destruct (bb84_sim.sample_and_check fuel raw_A raw_B bb84_sim.SAMPLE_FRACTION g0)
        as [[[[q m] k']|e|] g2]; cbn in Hret |- *; try exact Hret.
      destruct Hret as (-> & Hm).
      unfold eve_report, bb84_eve_sim.N_BITS. cbn. repeat split; lia.
    + intros Hg.
      destruct (sample_and_check_fair raw_A raw_B bb84_sim.SAMPLE_FRACTION g0 k
                  Hne ltac:(lia) Hsize Hk (Hfair0 Hg)) as (fuel0 & q & m & g2 & Hrun).
      exists fuel0. eexists _, g2. intros fuel Hfuel.
      rewrite Hmain, run_bind, (Hrun fuel Hfuel). reflexivity.
Qed.

Lemma eve_main_runs_through_witness :
  ∃ fuel0 s g', ∀ fuel, fuel0 ≤ fuel → bb84_eve_sim.main fuel counting_rng = (Ok s, g').
Proof.
  exact (proj2 (eve_main_runs_through counting_rng) counting_rng_fair).
Defined.

(** ** Runs of [random.sample] *)

(** Twenty-two positions, five wanted: the set branch; the third answer
    repeats the second and is drawn again. *)
Example random_sample_redraws :
  random_sample 1 (range 22) 5 {| tape := λ i, nth i [1; 2; 2; 11; 5; 21]%N 0%N; cursor := 0 |} =
  (Ok [1; 2; 11; 5; 21], {| tape := λ i, nth i [1; 2; 2; 11; 5; 21]%N 0%N; cursor := 6 |}).
Proof. vm_compute. reflexivity. Qed.

(** Twenty-one positions: the pool branch, on the same answers. *)
Example random_sample_shuffles :
  random_sample 1 (range 21) 5 {| tape := λ i, nth i [1; 2; 2; 11; 5; 21]%N 0%N; cursor := 0 |} =
  (Ok [1; 2; 19; 11; 5], {| tape := λ i, nth i [1; 2; 2; 11; 5; 21]%N 0%N; cursor := 5 |}).
Proof. vm_compute. reflexivity. Qed.

(** With [k > 5] the pool branch reaches further: 85 positions are still
    shuffled, 86 are not. *)
Example setsize_of_six : setsize 5 = 21%Z ∧ setsize 6 = 85%Z ∧ setsize 25 = 277%Z.
Proof. repeat split. Qed.

(** A generator that answers 0 for ever: the second position is never
    found, whatever the bound. *)
Example random_sample_stalls (fuel : nat) :
  (random_sample fuel (range 22) 2 {| tape := λ _, 0%N; cursor := 0 |}).1 = OutOfFuel.
Proof.
  assert (Hloop : ∀ c, (redraw fuel 22 [0] 0 {| tape := λ _, 0%N; cursor := c |}).1 =
                       OutOfFuel).
  { induction fuel as [|fuel IH]; intros c; [reflexivity|].
    cbn [redraw is_selected existsb Nat.eqb orb]. rewrite run_bind, randbelow_run.
    apply IH. }
  assert (Hfirst : ∀ g, redraw fuel 22 [] 0 g = (Ok 0, g))
    by (intros g; destruct fuel; reflexivity).
  change (random_sample fuel (range 22) 2 {| tape := λ _, 0%N; cursor := 0 |})
    with (sample_set fuel (seq 0 22) 22 [] 2 {| tape := λ _, 0%N; cursor := 0 |}).
  cbn [sample_set]. rewrite run_bind, randbelow_run, run_bind.
  change (N.to_nat (tape {| tape := λ _, 0%N; cursor := 0 |} _ mod N.of_nat 22)) with 0.
  rewrite Hfirst. change (seq 0 22 !! 0) with (Some 0). cbv iota beta.
  rewrite run_bind, run_bind, randbelow_run, run_bind.
  specialize (Hloop 2).
  change (N.to_nat (tape (advance _ 1) _ mod N.of_nat 22)) with 0.
  change (advance (advance {| tape := λ _ : nat, 0%N; cursor := 0 |} 1) 1)
    with {| tape := λ _ : nat, 0%N; cursor := 2 |}.
  destruct (redraw fuel 22 [0] 0 _) as [[j|e|] g]; cbn in Hloop |- *; congruence.
Qed.
